(** * The RPC protocol of the isolated extension API

    A shallow embedding of
    [packages/isolated-extension-api/src/api/rpc-protocol.ts]:
    the JSON text the [MessageFactory] writes and [JSON.parse] reads back,
    the [RPCMultiplexer] that batches outgoing messages, and the
    [RPCProtocolImpl] state machine with its proxies, its table of pending
    replies and its table of invoked handlers. *)

From Stdlib Require Import ZArith NArith Ascii Decimal DecimalString DecimalN DecimalFacts.
From stdpp Require Import base option list strings gmap.

Local Open Scope Z_scope.

#[local] Arguments String.append !_ _ / : simpl nomatch.

(** ** JSON values *)

(** The values [JSON.stringify] and [JSON.parse] exchange.  A number is an
    integer the double format holds exactly; a string is a string of code
    units below 256; an object keeps its own properties in the order they
    are enumerated.  The rule that enumerates integer-like keys ahead of the
    others is not modelled. *)
#[local] Unset Elimination Schemes.
Inductive JSON : Type :=
| JNull
| JBool (b : bool)
| JNum (z : Z)
| JStr (s : string)
| JArr (l : list JSON)
| JObj (ps : list (string * JSON)).
#[local] Set Elimination Schemes.

(** A JavaScript value as the protocol passes it around: [None] stands for
    [undefined]. *)
Abbreviation Value := (option JSON).

Section JSON_induction.
Variable P : JSON -> Prop.
Hypothesis Hnull : P JNull.
Hypothesis Hbool : forall b, P (JBool b).
Hypothesis Hnum : forall z, P (JNum z).
Hypothesis Hstr : forall s, P (JStr s).
Hypothesis Harr : forall l, Forall P l -> P (JArr l).
Hypothesis Hobj : forall ps, Forall (fun kv => P (snd kv)) ps -> P (JObj ps).

Fixpoint JSON_nested_ind (v : JSON) : P v :=
    match v with
    | JNull => Hnull
    | JBool b => Hbool b
    | JNum z => Hnum z
    | JStr s => Hstr s
    | JArr l =>
        Harr l ((fix go (l : list JSON) : Forall P l :=
                   match l with
                   | [] => List.Forall_nil P
                   | x :: l' => @List.Forall_cons _ P x l' (JSON_nested_ind x) (go l')
                   end) l)
    | JObj ps =>
        Hobj ps ((fix go (ps : list (string * JSON))
                    : Forall (fun kv => P (snd kv)) ps :=
                    match ps with
                    | [] => List.Forall_nil _
                    | kv :: ps' =>
                        @List.Forall_cons _ (fun kv => P (snd kv)) kv ps'
                          (JSON_nested_ind (snd kv)) (go ps')
                    end) ps)
    end.
End JSON_induction.

(** *** Characters *)

Definition code (c : ascii) : N := N_of_ascii c.
Definition chr (n : N) : ascii := ascii_of_N n.

Definition dquote : ascii := chr 34.
Definition backslash : ascii := chr 92.

Definition str1 (c : ascii) : string := String c EmptyString.

(** The largest integer below which every integer is a double: 2^53. *)
Definition MAX_SAFE : N := 9007199254740992%N.

(** *** JSON.stringify *)

Definition hex_digit (n : N) : ascii :=
  if (n <? 10)%N then chr (48 + n) else chr (87 + n).

(** One code unit inside a quoted string: the two-character escapes, then
    [\u00XX] for the other control characters, else the character itself. *)
Definition quote_char (c : ascii) : string :=
  let n := code c in
  if (n =? 34)%N then String backslash (str1 dquote)
  else if (n =? 92)%N then String backslash (str1 backslash)
  else if (n =? 8)%N then String backslash "b"
  else if (n =? 12)%N then String backslash "f"
  else if (n =? 10)%N then String backslash "n"
  else if (n =? 13)%N then String backslash "r"
  else if (n =? 9)%N then String backslash "t"
  else if (n <? 32)%N then
    String backslash
      (String "u" (String "0" (String "0"
         (String (hex_digit (n / 16)) (str1 (hex_digit (n mod 16)))))))
  else str1 c.

Fixpoint quote_chars (s : string) : string :=
  match s with
  | EmptyString => EmptyString
  | String c r => quote_char c +:+ quote_chars r
  end.

Definition quote (s : string) : string :=
  String dquote (quote_chars s +:+ str1 dquote).

(** [String(n)] of a non-negative integer below 10^21: its decimal digits. *)
Definition string_of_N (n : N) : string :=
  NilEmpty.string_of_uint (N.to_uint n).

Definition string_of_Z (z : Z) : string :=
  match z with
  | Zneg p => String "-" (string_of_N (Npos p))
  | _ => string_of_N (Z.to_N z)
  end.

Fixpoint stringify (v : JSON) : string :=
  match v with
  | JNull => "null"
  | JBool true => "true"
  | JBool false => "false"
  | JNum z => string_of_Z z
  | JStr s => quote s
  | JArr l => "[" +:+ String.concat "," (map stringify l) +:+ "]"
  | JObj ps =>
      "{" +:+
      String.concat ","
        (map (fun kv => quote (fst kv) +:+ ":" +:+ stringify (snd kv)) ps)
      +:+ "}"
  end.

(** *** JSON.parse *)

Definition is_ws (c : ascii) : bool :=
  let n := code c in
  ((n =? 32) || (n =? 9) || (n =? 10) || (n =? 13))%N.

Fixpoint skip_ws (s : string) : string :=
  match s with
  | String c r => if is_ws c then skip_ws r else s
  | EmptyString => s
  end.

Fixpoint strip_prefix (p s : string) : option string :=
  match p, s with
  | EmptyString, _ => Some s
  | String a p', String b s' =>
      if (code a =? code b)%N then strip_prefix p' s' else None
  | String _ _, EmptyString => None
  end.

Definition digit_of (c : ascii) : option (uint -> uint) :=
  match code c with
  | 48 => Some D0 | 49 => Some D1 | 50 => Some D2 | 51 => Some D3
  | 52 => Some D4 | 53 => Some D5 | 54 => Some D6 | 55 => Some D7
  | 56 => Some D8 | 57 => Some D9 | _ => None
  end%N.

Fixpoint parse_digits (s : string) : uint * string :=
  match s with
  | EmptyString => (Nil, s)
  | String c r =>
      match digit_of c with
      | Some f => let '(d, r') := parse_digits r in (f d, r')
      | None => (Nil, s)
      end
  end.

(** Does a fraction or an exponent follow the integer part? *)
Definition continues_number (s : string) : bool :=
  match s with
  | String c _ => let n := code c in ((n =? 46) || (n =? 101) || (n =? 69))%N
  | EmptyString => false
  end.

Definition leading_zero (d : uint) : bool :=
  match d with
  | D0 Nil => false
  | D0 _ => true
  | _ => false
  end.

(** The integer numerals of the JSON grammar below 2^53; [None] on any other
    text, a numeral with a fraction or an exponent included. *)
Definition parse_unsigned (s : string) : option (N * string) :=
  let '(d, r) := parse_digits s in
  match d with
  | Nil => None
  | _ =>
      if leading_zero d || continues_number r then None
      else let n := N.of_uint d in
           if (n <? MAX_SAFE)%N then Some (n, r) else None
  end.

Definition parse_number (s : string) : option (Z * string) :=
  match s with
  | String c r =>
      if (code c =? 45)%N
      then prod_map (fun n => - Z.of_N n) id <$> parse_unsigned r
      else prod_map Z.of_N id <$> parse_unsigned s
  | EmptyString => None
  end.

Definition hex_val (c : ascii) : option N :=
  let n := code c in
  if ((48 <=? n) && (n <=? 57))%N then Some (n - 48)%N
  else if ((97 <=? n) && (n <=? 102))%N then Some (n - 87)%N
  else if ((65 <=? n) && (n <=? 70))%N then Some (n - 55)%N
  else None.

Definition unescape (e : ascii) : option ascii :=
  let n := code e in
  if (n =? 34)%N then Some dquote
  else if (n =? 92)%N then Some backslash
  else if (n =? 47)%N then Some (chr 47)
  else if (n =? 98)%N then Some (chr 8)
  else if (n =? 102)%N then Some (chr 12)
  else if (n =? 110)%N then Some (chr 10)
  else if (n =? 114)%N then Some (chr 13)
  else if (n =? 116)%N then Some (chr 9)
  else None.

Definition hex4 (a b c d : ascii) : option N :=
  match hex_val a, hex_val b, hex_val c, hex_val d with
  | Some x, Some y, Some z, Some w => Some (((x * 16 + y) * 16 + z) * 16 + w)%N
  | _, _, _, _ => None
  end.

(** The characters of a string literal after its opening quote, up to and
    including the closing one.  A code unit above 255 has no counterpart in
    [ascii]: such an escape gives [None]. *)
Fixpoint parse_chars (s : string) : option (string * string) :=
  match s with
  | EmptyString => None
  | String c r =>
      let n := code c in
      if (n =? 34)%N then Some (EmptyString, r)
      else if (n =? 92)%N then
        match r with
        | EmptyString => None
        | String e r1 =>
            match unescape e with
            | Some c' => prod_map (String c') id <$> parse_chars r1
            | None =>
                if (code e =? 117)%N then
                  match r1 with
                  | String h1 (String h2 (String h3 (String h4 r2))) =>
                      match hex4 h1 h2 h3 h4 with
                      | Some u =>
                          if (u <? 256)%N
                          then prod_map (String (chr u)) id <$> parse_chars r2
                          else None
                      | None => None
                      end
                  | _ => None
                  end
                else None
            end
        end
      else if (n <? 32)%N then None
      else prod_map (String c) id <$> parse_chars r
  end.

(** Assignment to a property: an existing key keeps its place and takes the
    new value, a new key goes last. *)
Fixpoint set_prop (k : string) (v : JSON) (ps : list (string * JSON))
  : list (string * JSON) :=
  match ps with
  | [] => [(k, v)]
  | (k', v') :: ps' =>
      if String.eqb k k' then (k, v) :: ps' else (k', v') :: set_prop k v ps'
  end.

Fixpoint parse_value (fuel : nat) (s : string) {struct fuel}
  : option (JSON * string) :=
  match fuel with
  | O => None
  | S fuel =>
      match skip_ws s with
      | EmptyString => None
      | String c r =>
          let n := code c in
          if (n =? 123)%N then
            match skip_ws r with
            | EmptyString => None
            | String c' r' =>
                if (code c' =? 125)%N then Some (JObj [], r')
                else parse_members fuel [] r
            end
          else if (n =? 91)%N then
            match skip_ws r with
            | EmptyString => None
            | String c' r' =>
                if (code c' =? 93)%N then Some (JArr [], r')
                else prod_map JArr id <$> parse_elements fuel r
            end
          else if (n =? 34)%N then prod_map JStr id <$> parse_chars r
          else if (n =? 116)%N then pair (JBool true) <$> strip_prefix "rue" r
          else if (n =? 102)%N then pair (JBool false) <$> strip_prefix "alse" r
          else if (n =? 110)%N then pair JNull <$> strip_prefix "ull" r
          else prod_map JNum id <$> parse_number (String c r)
      end
  end
with parse_elements (fuel : nat) (s : string) {struct fuel}
  : option (list JSON * string) :=
  match fuel with
  | O => None
  | S fuel =>
      match parse_value fuel s with
      | None => None
      | Some (v, r) =>
          match skip_ws r with
          | EmptyString => None
          | String c r' =>
              if (code c =? 44)%N
              then prod_map (cons v) id <$> parse_elements fuel r'
              else if (code c =? 93)%N then Some ([v], r')
              else None
          end
      end
  end
with parse_members (fuel : nat) (acc : list (string * JSON)) (s : string)
  {struct fuel} : option (JSON * string) :=
  match fuel with
  | O => None
  | S fuel =>
      match skip_ws s with
      | EmptyString => None
      | String c r =>
          if (code c =? 34)%N then
            match parse_chars r with
            | None => None
            | Some (k, r1) =>
                match skip_ws r1 with
                | EmptyString => None
                | String c1 r2 =>
                    if (code c1 =? 58)%N then
                      match parse_value fuel r2 with
                      | None => None
                      | Some (v, r3) =>
                          match skip_ws r3 with
                          | EmptyString => None
                          | String c3 r4 =>
                              if (code c3 =? 44)%N
                              then parse_members fuel (set_prop k v acc) r4
                              else if (code c3 =? 125)%N
                              then Some (JObj (set_prop k v acc), r4)
                              else None
                          end
                      end
                    else None
                end
            end
          else None
      end
  end.

(** [JSON.parse]: one value, white space around it, nothing after it.
    [None] is a [SyntaxError], or a text outside the values modelled here. *)
Definition JSON_parse (s : string) : option JSON :=
  match parse_value (S (String.length s)) s with
  | Some (v, r) =>
      match skip_ws r with
      | EmptyString => Some v
      | String _ _ => None
      end
  | None => None
  end.

(** Values [JSON.stringify] writes as modelled and [JSON.parse] gives back:
    numbers below 2^53 in absolute value, no key twice in one object. *)
Fixpoint wf (v : JSON) : bool :=
  match v with
  | JNum z => Z.abs z <? Z.of_N MAX_SAFE
  | JArr l => forallb wf l
  | JObj ps =>
      bool_decide (NoDup (map fst ps)) && forallb (fun kv => wf (snd kv)) ps
  | _ => true
  end.

(** The fuel [parse_value] needs to read a value back. *)
Fixpoint size (v : JSON) : nat :=
  match v with
  | JArr l => S (list_sum (map (fun x => S (size x)) l))
  | JObj ps => S (list_sum (map (fun kv => S (size (snd kv))) ps))
  | _ => 1
  end.

(** What may follow a numeral: nothing that extends it. *)
Definition no_digit (rest : string) : Prop :=
  parse_digits rest = (Nil, rest) /\ continues_number rest = false.

(** One property of an object as [JSON.stringify] writes it. *)
Definition member (kv : string * JSON) : string :=
  quote (fst kv) +:+ ":" +:+ stringify (snd kv).

(** A value reads back under any fuel its size allows, whatever follows it,
    as long as what follows cannot extend a numeral. *)
Definition reads_back (v : JSON) : Prop :=
  forall (fuel : nat) (rest : string),
    (size v <= fuel)%nat -> no_digit rest ->
    parse_value fuel (stringify v +:+ rest) = Some (v, rest).

(** ** JavaScript values around the protocol *)

Definition truthy (v : Value) : bool :=
  match v with
  | None | Some JNull => false
  | Some (JBool b) => b
  | Some (JNum z) => negb (z =? 0)
  | Some (JStr s) => negb (String.eqb s EmptyString)
  | Some (JArr _) | Some (JObj _) => true
  end.

(** [a || b] *)
Definition js_or (a b : Value) : Value := if truthy a then a else b.

Fixpoint lookup_prop (k : string) (ps : list (string * JSON)) : Value :=
  match ps with
  | [] => None
  | (k', v) :: ps' => if String.eqb k k' then Some v else lookup_prop k ps'
  end.

(** [j.k] for a value that is not [null]: a property of an object, and
    [undefined] on anything else. *)
Definition get_prop (j : JSON) (k : string) : Value :=
  match j with
  | JObj ps => lookup_prop k ps
  | _ => None
  end.

(** An object literal as [JSON.stringify] sees it: a property whose value is
    [undefined] is left out. *)
Definition present (ps : list (string * Value)) : list (string * JSON) :=
  omap (fun kv => pair (fst kv) <$> snd kv) ps.

Definition wf_value (v : Value) : bool :=
  match v with
  | None => true
  | Some j => wf j
  end.

(** A text that needs no escape between double quotes: no double quote, no
    backslash, no control character. *)
Definition plain_char (c : ascii) : bool :=
  let n := code c in
  (negb (n =? 34) && negb (n =? 92) && negb (n <? 32))%N.

Fixpoint plain (s : string) : bool :=
  match s with
  | EmptyString => true
  | String c r => plain_char c && plain r
  end.

(** An instance of [Error].  [stacktrace] is the property
    [transformErrorForSerialization] looks for before [stack]. *)
Module Error.
Record t : Type := mk {
    name : Value;
    message : Value;
    stack : Value;
    stacktrace : Value
  }.
End Error.

(** A value a handler fails with: [err instanceof Error], or anything else. *)
Inductive Thrown : Type :=
| ErrorObject (e : Error.t)
| Plain (v : Value).

Module SerializedError.
Record t : Type := mk {
    isError : bool;
    name : Value;
    message : Value;
    stack : Value
  }.

  (** The object literal [{ $isError, name, message, stack }]. *)
Definition toJSON (e : t) : JSON :=
    JObj (present [("$isError", Some (JBool (isError e)));
                   ("name", name e);
                   ("message", message e);
                   ("stack", stack e)]).
End SerializedError.

(** What [transformErrorForSerialization] returns: the serialized form of an
    [Error], or its argument as it is. *)
Inductive Transformed : Type :=
| Structured (e : SerializedError.t)
| AsIs (v : Value).

Definition transformErrorForSerialization (error : Thrown) : Transformed :=
  match error with
  | ErrorObject e =>
      Structured
        (SerializedError.mk true (Error.name e) (Error.message e)
           (js_or (Error.stacktrace e) (Error.stack e)))
  | Plain v => AsIs v
  end.

(** [JSON.stringify x] inside a template literal; [undefined] prints as the
    word. *)
Definition stringify_value (v : Value) : string :=
  match v with
  | Some j => stringify j
  | None => "undefined"
  end.

Definition stringify_transformed (t : Transformed) : string :=
  match t with
  | Structured e => stringify (SerializedError.toJSON e)
  | AsIs v => stringify_value v
  end.

(** ** Messages *)

Module MessageType.
Inductive t : Type := Request | Reply | ReplyErr.

Definition value (m : t) : Z :=
    match m with
    | Request => 1
    | Reply => 2
    | ReplyErr => 3
    end.
End MessageType.

(** A text between double quotes, as a template literal puts it there:
    nothing is escaped. *)
Definition lit (s : string) : string := String dquote (s +:+ str1 dquote).

Module MessageFactory.
Definition request (req rpcId method : string) (args : list JSON) : string :=
    "{" +:+ lit "type" +:+ ":" +:+ string_of_Z (MessageType.value MessageType.Request)
    +:+ "," +:+ lit "id" +:+ ":" +:+ lit req
    +:+ "," +:+ lit "proxyId" +:+ ":" +:+ lit rpcId
    +:+ "," +:+ lit "method" +:+ ":" +:+ lit method
    +:+ "," +:+ lit "args" +:+ ":" +:+ stringify (JArr args) +:+ "}".

Definition replyOK (req : string) (res : Value) : string :=
    match res with
    | None =>
        "{" +:+ lit "type" +:+ ":" +:+ string_of_Z (MessageType.value MessageType.Reply)
        +:+ "," +:+ lit "id" +:+ ":" +:+ lit req +:+ "}"
    | Some j =>
        "{" +:+ lit "type" +:+ ":" +:+ string_of_Z (MessageType.value MessageType.Reply)
        +:+ "," +:+ lit "id" +:+ ":" +:+ lit req
        +:+ "," +:+ lit "res" +:+ ":" +:+ stringify j +:+ "}"
    end.

Definition replyErr (req : string) (err : Thrown) : string :=
    match err with
    | ErrorObject _ =>
        "{" +:+ lit "type" +:+ ":" +:+ string_of_Z (MessageType.value MessageType.ReplyErr)
        +:+ "," +:+ lit "id" +:+ ":" +:+ lit req
        +:+ "," +:+ lit "err" +:+ ":"
        +:+ stringify_transformed (transformErrorForSerialization err) +:+ "}"
    | Plain _ =>
        "{" +:+ lit "type" +:+ ":" +:+ string_of_Z (MessageType.value MessageType.ReplyErr)
        +:+ "," +:+ lit "id" +:+ ":" +:+ lit req
        +:+ "," +:+ lit "err" +:+ ":null}"
    end.
End MessageFactory.

Module RequestMessage.
Record t : Type := mk {
    id : string;
    proxyId : string;
    method : string;
    args : list JSON
  }.
End RequestMessage.

Module ReplyMessage.
Record t : Type := mk { id : string; res : Value }.
End ReplyMessage.

Module ReplyErrMessage.
Record t : Type := mk { id : string; err : Value }.
End ReplyErrMessage.

Inductive RPCMessage : Type :=
| Request (m : RequestMessage.t)
| Reply (m : ReplyMessage.t)
| ReplyErr (m : ReplyErrMessage.t).

(** What [receiveOneMessage] makes of a parsed text: a message of one of the
    three declared classes, or a value no [case] of its [switch] takes. *)
Inductive Decoded : Type :=
| Known (m : RPCMessage)
| Unknown.

(** The cast [<RPCMessage>JSON.parse(rawmsg)] and the [switch] on [msg.type].
    [None]: reading [type] of [null] throws, or the fields do not have the
    types the message classes declare. *)
Definition decode (j : JSON) : option Decoded :=
  match j with
  | JNull => None
  | _ =>
      match get_prop j "type" with
      | Some (JNum 1) =>
          match get_prop j "id", get_prop j "proxyId",
                get_prop j "method", get_prop j "args" with
          | Some (JStr i), Some (JStr p), Some (JStr m), Some (JArr a) =>
              Some (Known (Request (RequestMessage.mk i p m a)))
          | _, _, _, _ => None
          end
      | Some (JNum 2) =>
          match get_prop j "id" with
          | Some (JStr i) =>
              Some (Known (Reply (ReplyMessage.mk i (get_prop j "res"))))
          | _ => None
          end
      | Some (JNum 3) =>
          match get_prop j "id" with
          | Some (JStr i) =>
              Some (Known (ReplyErr (ReplyErrMessage.mk i (get_prop j "err"))))
          | _ => None
          end
      | _ => Some Unknown
      end
  end.

(** ** ProxyIdentifier *)

Module ProxyIdentifier.
Record t : Type := mk { isMain : bool; id : string }.
End ProxyIdentifier.

Definition createMainProxyIdentifier (identifier : string) : ProxyIdentifier.t :=
  ProxyIdentifier.mk true ("m" +:+ identifier).

Definition createExtensionProxyIdentifier (identifier : string) : ProxyIdentifier.t :=
  ProxyIdentifier.mk false ("e" +:+ identifier).

(** ** LazyPromise *)

(** Modelled from the spec: the class [LazyPromise] of [./lazy-promise],
    which [rpc-protocol.ts] imports and which is not among the sources.  A
    Deferred Result starts Pending; [resolveOk] and [resolveErr] settle a
    Pending one and are ignored after that. *)
Inductive LazyPromise : Type :=
| Pending
| ResolvedOk (value : Value)
| ResolvedErr (err : option Error.t)
| Canceled.

Definition resolveOk (value : Value) (p : LazyPromise) : LazyPromise :=
  match p with
  | Pending => ResolvedOk value
  | _ => p
  end.

Definition resolveErr (err : option Error.t) (p : LazyPromise) : LazyPromise :=
  match p with
  | Pending => ResolvedErr err
  | _ => p
  end.

(** ** RPCMultiplexer *)

(** The callbacks the multiplexer hands to [setImmediate]. *)
Inductive Immediate : Type := sendAccumulatedBound.

(** The multiplexer with the two things it acts on: the queue of
    [setImmediate] and the connection, as the list of batches handed to
    [connection.send], oldest first. *)
Record RPCMultiplexer : Type := {
  messagesToSend : list string;
  immediates : list Immediate;
  connection : list (list string)
}.

Definition new_RPCMultiplexer : RPCMultiplexer :=
  {| messagesToSend := []; immediates := []; connection := [] |}.

Definition sendAccumulated (m : RPCMultiplexer) : RPCMultiplexer :=
  let tmp := messagesToSend m in
  {| messagesToSend := [];
     immediates := immediates m;
     connection := connection m ++ [tmp] |}.

Definition send (msg : string) (m : RPCMultiplexer) : RPCMultiplexer :=
  {| messagesToSend := messagesToSend m ++ [msg];
     immediates :=
       if Nat.eqb (length (messagesToSend m)) 0
       then immediates m ++ [sendAccumulatedBound]
       else immediates m;
     connection := connection m |}.

(** The event loop runs the oldest callback of [setImmediate]. *)
Definition runImmediate (m : RPCMultiplexer) : RPCMultiplexer :=
  match immediates m with
  | [] => m
  | sendAccumulatedBound :: rest =>
      sendAccumulated
        {| messagesToSend := messagesToSend m;
           immediates := rest;
           connection := connection m |}
  end.



(** ** Actors and their promises *)

(** How a promise ends. *)
Inductive Settlement : Type :=
| Fulfilled (r : Value)
| Rejected (e : Thrown).

(** What [method.apply(actor, args)] does: return a value, throw, or return
    a promise, named by a number, that the actor settles later. *)
Inductive Outcome : Type :=
| Returns (r : Value)
| Throws (e : Thrown)
| ReturnsPromise (p : nat).

(** One call of an actor method: proxy id, method name, arguments. *)
Definition Invocation : Type := string * string * list JSON.

(** [actor[methodName]]: a function, which may answer by the calls made so
    far, or a value that is not callable. *)
Inductive Member : Type :=
| Method (f : list Invocation -> list JSON -> Outcome)
| Data (v : Value).

Definition Actor : Type := string -> option Member.

(** The promise [invokeHandler] returns: made by [Promise.resolve] or
    [Promise.reject] and settled from the start, or the actor's own promise. *)
Inductive HandlerPromise : Type :=
| Settled (o : Settlement)
| Adopted (p : nat).

(** A reaction of [receiveRequest] whose promise has settled: it waits in
    the microtask queue with the call id it closes over. *)
Record Job : Type := { job_callId : string; job_outcome : Settlement }.

(** The function a proxy binds to a name:
    [(...myArgs) => this.remoteCall(proxyId, name, myArgs)]. *)
Record RemoteFunction : Type := { fn_proxyId : string; fn_name : string }.

(** What [remoteCall] returns: [Promise.reject(canceled())], or the
    [LazyPromise] at an address of the heap. *)
Inductive CallResult : Type :=
| RejectedWith (e : Error.t)
| Deferred (addr : nat).

(** ** RPCProtocolImpl *)

(** The fields of the class, then what its code reaches outside of them:
    the [LazyPromise] objects it created, the promises of the actors, the
    reactions and jobs of [receiveRequest], the log of actor calls, and the
    engine, as the [stack] it gives a new [Error] by its message. *)
Record State : Type := {
  isDisposed : bool;
  locals : gmap string Actor;
  proxies : gmap string (gmap string RemoteFunction);
  lastMessageId : N;
  invokedHandlers : gmap string HandlerPromise;
  pendingRPCReplies : gmap string nat;
  multiplexor : RPCMultiplexer;
  heap : list LazyPromise;
  settled : gmap nat Settlement;
  reactions : list (nat * string);
  microtasks : list Job;
  invoked : list Invocation;
  engine : string -> Value
}.

(** The constructor.  No method of the class writes to [locals]: the actors
    are the table the instance is given. *)
Definition new_RPCProtocolImpl (captureStack : string -> Value)
    (actors : gmap string Actor) : State :=
  {| isDisposed := false;
     locals := actors;
     proxies := ∅;
     lastMessageId := 0;
     invokedHandlers := ∅;
     pendingRPCReplies := ∅;
     multiplexor := new_RPCMultiplexer;
     heap := [];
     settled := ∅;
     reactions := [];
     microtasks := [];
     invoked := [];
     engine := captureStack |}.

Definition set_proxies (v : gmap string (gmap string RemoteFunction)) (s : State) : State :=
  {| isDisposed := isDisposed s; locals := locals s; proxies := v;
     lastMessageId := lastMessageId s; invokedHandlers := invokedHandlers s;
     pendingRPCReplies := pendingRPCReplies s; multiplexor := multiplexor s;
     heap := heap s; settled := settled s; reactions := reactions s;
     microtasks := microtasks s; invoked := invoked s;
     engine := engine s |}.

Definition set_lastMessageId (v : N) (s : State) : State :=
  {| isDisposed := isDisposed s; locals := locals s; proxies := proxies s;
     lastMessageId := v; invokedHandlers := invokedHandlers s;
     pendingRPCReplies := pendingRPCReplies s; multiplexor := multiplexor s;
     heap := heap s; settled := settled s; reactions := reactions s;
     microtasks := microtasks s; invoked := invoked s;
     engine := engine s |}.

Definition set_invokedHandlers (v : gmap string HandlerPromise) (s : State) : State :=
  {| isDisposed := isDisposed s; locals := locals s; proxies := proxies s;
     lastMessageId := lastMessageId s; invokedHandlers := v;
     pendingRPCReplies := pendingRPCReplies s; multiplexor := multiplexor s;
     heap := heap s; settled := settled s; reactions := reactions s;
     microtasks := microtasks s; invoked := invoked s;
     engine := engine s |}.

Definition set_pendingRPCReplies (v : gmap string nat) (s : State) : State :=
  {| isDisposed := isDisposed s; locals := locals s; proxies := proxies s;
     lastMessageId := lastMessageId s; invokedHandlers := invokedHandlers s;
     pendingRPCReplies := v; multiplexor := multiplexor s;
     heap := heap s; settled := settled s; reactions := reactions s;
     microtasks := microtasks s; invoked := invoked s;
     engine := engine s |}.

Definition set_multiplexor (v : RPCMultiplexer) (s : State) : State :=
  {| isDisposed := isDisposed s; locals := locals s; proxies := proxies s;
     lastMessageId := lastMessageId s; invokedHandlers := invokedHandlers s;
     pendingRPCReplies := pendingRPCReplies s; multiplexor := v;
     heap := heap s; settled := settled s; reactions := reactions s;
     microtasks := microtasks s; invoked := invoked s;
     engine := engine s |}.

Definition set_heap (v : list LazyPromise) (s : State) : State :=
  {| isDisposed := isDisposed s; locals := locals s; proxies := proxies s;
     lastMessageId := lastMessageId s; invokedHandlers := invokedHandlers s;
     pendingRPCReplies := pendingRPCReplies s; multiplexor := multiplexor s;
     heap := v; settled := settled s; reactions := reactions s;
     microtasks := microtasks s; invoked := invoked s;
     engine := engine s |}.

Definition set_settled (v : gmap nat Settlement) (s : State) : State :=
  {| isDisposed := isDisposed s; locals := locals s; proxies := proxies s;
     lastMessageId := lastMessageId s; invokedHandlers := invokedHandlers s;
     pendingRPCReplies := pendingRPCReplies s; multiplexor := multiplexor s;
     heap := heap s; settled := v; reactions := reactions s;
     microtasks := microtasks s; invoked := invoked s;
     engine := engine s |}.

Definition set_reactions (v : list (nat * string)) (s : State) : State :=
  {| isDisposed := isDisposed s; locals := locals s; proxies := proxies s;
     lastMessageId := lastMessageId s; invokedHandlers := invokedHandlers s;
     pendingRPCReplies := pendingRPCReplies s; multiplexor := multiplexor s;
     heap := heap s; settled := settled s; reactions := v;
     microtasks := microtasks s; invoked := invoked s;
     engine := engine s |}.

Definition set_microtasks (v : list Job) (s : State) : State :=
  {| isDisposed := isDisposed s; locals := locals s; proxies := proxies s;
     lastMessageId := lastMessageId s; invokedHandlers := invokedHandlers s;
     pendingRPCReplies := pendingRPCReplies s; multiplexor := multiplexor s;
     heap := heap s; settled := settled s; reactions := reactions s;
     microtasks := v; invoked := invoked s;
     engine := engine s |}.

Definition set_invoked (v : list Invocation) (s : State) : State :=
  {| isDisposed := isDisposed s; locals := locals s; proxies := proxies s;
     lastMessageId := lastMessageId s; invokedHandlers := invokedHandlers s;
     pendingRPCReplies := pendingRPCReplies s; multiplexor := multiplexor s;
     heap := heap s; settled := settled s; reactions := reactions s;
     microtasks := microtasks s; invoked := v;
     engine := engine s |}.

(** [++n] on the counter.  It counts up from 0 in steps of one, so it is an
    integer of at most 2^53: below 2^53 the sum is exact, and 2^53 + 1
    rounds back to 2^53. *)
Definition increment (n : N) : N :=
  if (n <? MAX_SAFE)%N then (n + 1)%N else n.

(** [name.charCodeAt(0) === 36] *)
Definition starts_with_dollar (name : string) : bool :=
  match name with
  | String c _ => (code c =? 36)%N
  | EmptyString => false
  end.

(** The [get] trap of [createProxy], on the target of the proxy. *)
Definition handler_get (proxyId : string)
    (target : gmap string RemoteFunction) (name : string)
  : option RemoteFunction * gmap string RemoteFunction :=
  let target' :=
    if negb (bool_decide (is_Some (target !! name))) && starts_with_dollar name
    then <[name := {| fn_proxyId := proxyId; fn_name := name |}]> target
    else target in
  (target' !! name, target').

(** [createProxy]: a proxy over an empty target. *)
Definition createProxy (proxyId : string) : gmap string RemoteFunction := ∅.

Definition getProxy (proxyId : ProxyIdentifier.t) (s : State) : State :=
  let id := ProxyIdentifier.id proxyId in
  match proxies s !! id with
  | Some _ => s
  | None => set_proxies (<[id := createProxy id]> (proxies s)) s
  end.

(** Reading property [name] of the proxy kept for [proxyId]. *)
Definition proxy_get (proxyId name : string) (s : State)
  : option RemoteFunction * State :=
  match proxies s !! proxyId with
  | Some target =>
      let '(f, target') := handler_get proxyId target name in
      (f, set_proxies (<[proxyId := target']> (proxies s)) s)
  | None => (None, s)
  end.

(** [new Error(msg)]; [captureStack] is the [stack] the engine gives a new
    error, by its message. *)
Definition new_Error (captureStack : string -> Value) (msg : string) : Error.t :=
  Error.mk (Some (JStr "Error")) (Some (JStr msg)) (captureStack msg) None.

Definition canceled (captureStack : string -> Value) : Error.t :=
  let error := new_Error captureStack "Canceled" in
  Error.mk (Error.message error) (Error.message error)
    (Error.stack error) (Error.stacktrace error).

Definition remoteCall (proxyId methodName : string) (args : list JSON)
    (s : State) : CallResult * State :=
  if isDisposed s then (RejectedWith (canceled (engine s)), s)
  else
    let n := increment (lastMessageId s) in
    let callId := string_of_N n in
    let result := length (heap s) in
    (Deferred result,
     set_multiplexor
       (send (MessageFactory.request callId proxyId methodName args)
          (multiplexor s))
       (set_pendingRPCReplies (<[callId := result]> (pendingRPCReplies s))
          (set_heap (heap s ++ [Pending])
             (set_lastMessageId n s)))).

(** Calling the function a proxy bound to a name. *)
Definition call (f : RemoteFunction) (myArgs : list JSON) (s : State)
  : CallResult * State :=
  remoteCall (fn_proxyId f) (fn_name f) myArgs s.

Definition doInvokeHandler (proxyId methodName : string) (args : list JSON)
    (s : State) : Outcome * State :=
  match locals s !! proxyId with
  | None => (Throws (ErrorObject (new_Error (engine s) ("Unknown actor " +:+ proxyId))), s)
  | Some actor =>
      match actor methodName with
      | Some (Method f) =>
          (f (invoked s) args,
           set_invoked (invoked s ++ [(proxyId, methodName, args)]) s)
      | _ =>
          (Throws (ErrorObject
                     (new_Error (engine s) ("Unknown method " +:+ methodName
                                 +:+ " on actor " +:+ proxyId))), s)
      end
  end.

Definition invokeHandler (proxyId methodName : string) (args : list JSON)
    (s : State) : HandlerPromise * State :=
  match doInvokeHandler proxyId methodName args s with
  | (Returns r, s') => (Settled (Fulfilled r), s')
  | (ReturnsPromise p, s') => (Adopted p, s')
  | (Throws err, s') => (Settled (Rejected err), s')
  end.

(** [promise.then(...)] for the two callbacks of [receiveRequest]: a job at
    once when the promise has settled, a reaction kept on it otherwise. *)
Definition then_reply (h : HandlerPromise) (callId : string) (s : State) : State :=
  let now o :=
    set_microtasks (microtasks s ++ [{| job_callId := callId; job_outcome := o |}]) s in
  match h with
  | Settled o => now o
  | Adopted p =>
      match settled s !! p with
      | Some o => now o
      | None => set_reactions (reactions s ++ [(p, callId)]) s
      end
  end.

Definition receiveRequest (msg : RequestMessage.t) (s : State) : State :=
  let callId := RequestMessage.id msg in
  let proxyId := RequestMessage.proxyId msg in
  let '(h, s1) :=
    invokeHandler proxyId (RequestMessage.method msg) (RequestMessage.args msg) s in
  let s2 := set_invokedHandlers (<[callId := h]> (invokedHandlers s1)) s1 in
  then_reply h callId s2.

(** The callbacks given to [then]: both delete the entry of the call id and
    send one message. *)
Definition reply_of (callId : string) (o : Settlement) : string :=
  match o with
  | Fulfilled r => MessageFactory.replyOK callId r
  | Rejected err => MessageFactory.replyErr callId err
  end.

Definition runJob (j : Job) (s : State) : State :=
  let callId := job_callId j in
  let s1 := set_invokedHandlers (delete callId (invokedHandlers s)) s in
  set_multiplexor (send (reply_of callId (job_outcome j)) (multiplexor s1)) s1.

Definition receiveReply (msg : ReplyMessage.t) (s : State) : State :=
  let callId := ReplyMessage.id msg in
  match pendingRPCReplies s !! callId with
  | None => s
  | Some pendingReply =>
      let s1 := set_pendingRPCReplies (delete callId (pendingRPCReplies s)) s in
      set_heap (alter (resolveOk (ReplyMessage.res msg)) pendingReply (heap s1)) s1
  end.

(** [new Error()] with [name], [message] and [stack] assigned from the
    message. *)
Definition error_of_serialized (e : JSON) : Error.t :=
  Error.mk (get_prop e "name") (get_prop e "message") (get_prop e "stack") None.

Definition receiveReplyErr (msg : ReplyErrMessage.t) (s : State) : State :=
  let callId := ReplyErrMessage.id msg in
  match pendingRPCReplies s !! callId with
  | None => s
  | Some pendingReply =>
      let s1 := set_pendingRPCReplies (delete callId (pendingRPCReplies s)) s in
      let err :=
        match ReplyErrMessage.err msg with
        | Some e =>
            if truthy (Some e) && truthy (get_prop e "$isError")
            then Some (error_of_serialized e)
            else None
        | None => None
        end in
      set_heap (alter (resolveErr err) pendingReply (heap s1)) s1
  end.

(** The [switch] of [receiveOneMessage]. *)
Definition dispatch (msg : RPCMessage) (s : State) : State :=
  match msg with
  | Request m => receiveRequest m s
  | Reply m => receiveReply m s
  | ReplyErr m => receiveReplyErr m s
  end.

(** [None]: [JSON.parse] or the read of [msg.type] throws, or the message is
    not of the declared classes; what the code does with a message of other
    types than it declares is not modelled. *)
Definition receiveOneMessage (rawmsg : string) (s : State) : option State :=
  if isDisposed s then Some s
  else
    match JSON_parse rawmsg with
    | None => None
    | Some msg =>
        match decode msg with
        | None => None
        | Some (Known m) => Some (dispatch m s)
        | Some Unknown => Some s
        end
    end.

(** The listener the multiplexer puts on [connection.onMessage]: the
    messages of a batch in order; an exception ends the loop. *)
Fixpoint onMessage (data : list string) (s : State) : State :=
  match data with
  | [] => s
  | rawmsg :: rest =>
      match receiveOneMessage rawmsg s with
      | Some s' => onMessage rest s'
      | None => s
      end
  end.

(** A promise of an actor settles: its reactions become jobs.  A promise
    settles once. *)
Definition settlePromise (p : nat) (o : Settlement) (s : State) : State :=
  match settled s !! p with
  | Some _ => s
  | None =>
      let ready := filter (fun r => fst r = p) (reactions s) in
      let waiting := filter (fun r => fst r <> p) (reactions s) in
      set_microtasks
        (microtasks s ++
         map (fun r => {| job_callId := snd r; job_outcome := o |}) ready)
        (set_reactions waiting (set_settled (<[p := o]> (settled s)) s))
  end.

Definition runMicrotask (s : State) : State :=
  match microtasks s with
  | [] => s
  | j :: rest => runJob j (set_microtasks rest s)
  end.

(** All the jobs queued, oldest first; a job queues no other job. *)
Definition runMicrotasks (s : State) : State :=
  foldl (fun s j => runJob j s) (set_microtasks [] s) (microtasks s).

(** ** The events of a session *)

Inductive Event : Type :=
| GetProxy (proxyId : ProxyIdentifier.t)
| ProxyGet (proxyId name : string)
| ProxyCall (proxyId name : string) (myArgs : list JSON)
| Deliver (data : list string)
| SettlePromise (p : nat) (o : Settlement)
| Microtask
| RunImmediate.

Definition step (e : Event) (s : State) : State :=
  match e with
  | GetProxy proxyId => getProxy proxyId s
  | ProxyGet proxyId name => snd (proxy_get proxyId name s)
  | ProxyCall proxyId name myArgs =>
      match proxy_get proxyId name s with
      | (Some f, s') => snd (call f myArgs s')
      | (None, s') => s'
      end
  | Deliver data => onMessage data s
  | SettlePromise p o => settlePromise p o s
  | Microtask => runMicrotask s
  | RunImmediate => set_multiplexor (runImmediate (multiplexor s)) s
  end.

Definition run (es : list Event) (s : State) : State :=
  foldl (fun s e => step e s) s es.

(** The states a session goes through. *)
Definition reachable (s : State) : Prop :=
  exists (captureStack : string -> Value) (actors : gmap string Actor)
         (es : list Event),
    s = run es (new_RPCProtocolImpl captureStack actors).

(** ** Vocabulary of the properties *)


Definition reply_object (req : string) (res : Value) : JSON :=
  JObj (present [("type", Some (JNum 2)); ("id", Some (JStr req)); ("res", res)]).

Definition serialized_object (e : Error.t) : JSON :=
  JObj (present [("$isError", Some (JBool true));
                 ("name", Error.name e);
                 ("message", Error.message e);
                 ("stack", js_or (Error.stacktrace e) (Error.stack e))]).

Definition replyErr_object (req : string) (err : JSON) : JSON :=
  JObj [("type", JNum 3); ("id", JStr req); ("err", err)].

Definition wf_error (e : Error.t) : bool :=
  wf_value (Error.name e) && wf_value (Error.message e)
  && wf_value (Error.stack e) && wf_value (Error.stacktrace e).

(** The messages queued in the multiplexer. *)
Definition queued (s : State) : list string := messagesToSend (multiplexor s).



Definition handler_promise (o : Outcome) : HandlerPromise :=
  match o with
  | Returns r => Settled (Fulfilled r)
  | Throws err => Settled (Rejected err)
  | ReturnsPromise p => Adopted p
  end.



(** The fields of [s'] that no message handler writes are those of [s], and
    the pending replies of [s'] are among those of [s]. *)
Definition handled (s s' : State) : Prop :=
  isDisposed s' = isDisposed s /\
  proxies s' = proxies s /\
  lastMessageId s' = lastMessageId s /\
  locals s' = locals s /\
  (forall k a, pendingRPCReplies s' !! k = Some a ->
               pendingRPCReplies s !! k = Some a).

(** Every pending call id is the decimal form of a value the counter has
    had. *)
Definition pending_ok (s : State) : Prop :=
  forall k a, pendingRPCReplies s !! k = Some a ->
    exists n, (1 <= n <= lastMessageId s)%N /\ k = string_of_N n.

(** A target holds nothing but what the [get] trap has put there. *)
Definition proxies_ok (s : State) : Prop :=
  forall proxyId target name f,
    proxies s !! proxyId = Some target -> target !! name = Some f ->
    starts_with_dollar name = true /\
    f = {| fn_proxyId := proxyId; fn_name := name |}.

Definition invariant (s : State) : Prop :=
  isDisposed s = false /\ pending_ok s /\ proxies_ok s.

(** The values of a settlement that [JSON.stringify] writes as modelled. *)
Definition wf_settlement (o : Settlement) : bool :=
  match o with
  | Fulfilled r => wf_value r
  | Rejected (ErrorObject e) => wf_error e
  | Rejected (Plain _) => true
  end.

(** The call id a reply answers. *)
Definition reply_id (msg : RPCMessage) : option string :=
  match msg with
  | Request _ => None
  | Reply m => Some (ReplyMessage.id m)
  | ReplyErr m => Some (ReplyErrMessage.id m)
  end.

(** ** Sample data *)

(** A stack for the examples: the first line an engine writes. *)
Definition example_stack (msg : string) : Value :=
  Some (JStr ("Error: " +:+ msg)).

Definition mService : ProxyIdentifier.t := createMainProxyIdentifier "Service".

(** An instance without actors. *)
Definition fresh : State := new_RPCProtocolImpl example_stack ∅.

(** An actor with one method, [$greet(name)]. *)
Definition greeter : Actor :=
  fun name =>
    if String.eqb name "$greet"
    then Some (Method (fun _ args =>
                 match args with
                 | [JStr n] => Returns (Some (JStr ("Hello, " +:+ n)))
                 | _ => Throws (Plain None)
                 end))
    else None.

Definition host : State :=
  new_RPCProtocolImpl example_stack {[ "mService" := greeter ]}.

Definition one_call : State :=
  run [GetProxy mService; ProxyCall "mService" "$greet" [JStr "World"]] fresh.

Definition two_calls : State :=
  run [GetProxy mService;
       ProxyCall "mService" "$a" [];
       ProxyCall "mService" "$b" []] fresh.

(** A state with the flag set by hand, which no operation does. *)
Definition disposed (s : State) : State :=
  {| isDisposed := true; locals := locals s; proxies := proxies s;
     lastMessageId := lastMessageId s; invokedHandlers := invokedHandlers s;
     pendingRPCReplies := pendingRPCReplies s; multiplexor := multiplexor s;
     heap := heap s; settled := settled s; reactions := reactions s;
     microtasks := microtasks s; invoked := invoked s;
     engine := engine s |}.


(** An error that carries a [stacktrace] next to its [stack]. *)
Definition traced_error : Error.t :=
  Error.mk (Some (JStr "Error")) (Some (JStr "boom"))
    (Some (JStr "at sender")) (Some (JStr "trace")).

(** ** The multiplexer over several turns *)

(** What happens to a multiplexer: a message is handed to [send], or the
    event loop runs the oldest callback of [setImmediate]. *)
Inductive MuxEvent : Type :=
| MSend (msg : string)
| MImmediate.

Definition mux_step (e : MuxEvent) (m : RPCMultiplexer) : RPCMultiplexer :=
  match e with
  | MSend msg => send msg m
  | MImmediate => runImmediate m
  end.

Definition mux_run (es : list MuxEvent) (m : RPCMultiplexer) : RPCMultiplexer :=
  foldl (fun m e => mux_step e m) m es.

(** The messages handed to [send] in a run, in order. *)
Definition handed (es : list MuxEvent) : list string :=
  omap (fun e => match e with MSend msg => Some msg | MImmediate => None end) es.

(** No batch is empty, and a flush is scheduled when and only when messages
    are queued, once. *)
Definition mux_ok (m : RPCMultiplexer) : Prop :=
  Forall (fun batch => batch <> []) (connection m) /\
  immediates m = if messagesToSend m is [] then [] else [sendAccumulatedBound].

(** ** Batches of incoming messages *)



(** ** Outstanding calls *)

(** Every pending reply is a [LazyPromise] of the heap that is still
    pending, and no two call ids share one. *)
Definition calls_ok (s : State) : Prop :=
  (forall k a, pendingRPCReplies s !! k = Some a -> heap s !! a = Some Pending) /\
  (forall k k' a, pendingRPCReplies s !! k = Some a ->
                  pendingRPCReplies s !! k' = Some a -> k = k').



(** ** The search term throttle *)

(** [FileNavigatorSearch.Throttle] of [navigator-search.ts], with what it
    acts on: the values handed to [emitter.fire], oldest first, and the
    timers of [window]: those set and neither cleared nor run, and the id
    the next [window.setTimeout] returns.  The delay itself is left out:
    a timer runs when the event [timeout] says so. *)
Module Throttle.

Record t : Type := mk {
  timer : option N;
  state : option string;
  emitter : list (option string);
  timers : list N;
  nextTimer : N
}.

(** The constructor, in a window whose timer ids start at 1. *)
Definition new : t :=
  {| timer := None; state := None; emitter := []; timers := [];
     nextTimer := 1 |}.

(** [if (this.timer)]: a number other than 0. *)
Definition timer_set (th : t) : option N :=
  match timer th with
  | Some id => if (id =? 0)%N then None else Some id
  | None => None
  end.

Definition clearTimer (th : t) : t :=
  match timer_set th with
  | Some id =>
      {| timer := None; state := state th; emitter := emitter th;
         timers := filter (fun x => x <> id) (timers th);
         nextTimer := nextTimer th |}
  | None => th
  end.

Definition fireChanged (value : option string) (th : t) : t :=
  let th1 := clearTimer th in
  {| timer := timer th1; state := state th1;
     emitter := emitter th1 ++ [value];
     timers := timers th1; nextTimer := nextTimer th1 |}.

Definition reset (th : t) : t :=
  fireChanged None
    {| timer := timer th; state := None; emitter := emitter th;
       timers := timers th; nextTimer := nextTimer th |}.

(** [if (this.state)]: a string other than the empty one. *)
Definition state_set (th : t) : option string :=
  match state th with
  | Some s => if String.eqb s EmptyString then None else Some s
  | None => None
  end.

Definition update (input : option string) (th : t) : t :=
  match input with
  | None => reset th
  | Some i =>
      let th1 := clearTimer th in
      let st := match state_set th1 with
                | Some s => s +:+ i
                | None => i
                end in
      let id := nextTimer th1 in
      {| timer := Some id; state := Some st; emitter := emitter th1;
         timers := timers th1 ++ [id]; nextTimer := (id + 1)%N |}
  end.

(** The event loop runs the callback of timer [id],
    [() => this.fireChanged(this.state)], if the timer is still set. *)
Definition timeout (id : N) (th : t) : t :=
  if bool_decide (id ∈ timers th)
  then
    let th1 := {| timer := timer th; state := state th; emitter := emitter th;
                  timers := filter (fun x => x <> id) (timers th);
                  nextTimer := nextTimer th |} in
    fireChanged (state th1) th1
  else th.

Inductive Event : Type :=
| Update (input : option string)
| Timeout (id : N).

Definition step (e : Event) (th : t) : t :=
  match e with
  | Update input => update input th
  | Timeout id => timeout id th
  end.

Definition run (es : list Event) (th : t) : t := foldl (fun th e => step e th) th es.

Definition reachable (th : t) : Prop := exists es, th = run es new.

(** The one timer set is the one the throttle remembers. *)
Definition timers_ok (th : t) : Prop :=
  (nextTimer th <> 0)%N /\
  match timer th with
  | Some id => timers th = [id] /\ (0 < id < nextTimer th)%N
  | None => timers th = []
  end.

(** The term typed so far, the empty string when there is none. *)
Definition term (th : t) : string :=
  match state_set th with
  | Some s => s
  | None => EmptyString
  end.

Fixpoint concat_all (l : list string) : string :=
  match l with
  | [] => EmptyString
  | x :: l' => x +:+ concat_all l'
  end.

End Throttle.

(** ** More sample data *)

(** A proxy that has bound [$greet]. *)
Definition bound_once : State :=
  run [GetProxy mService; ProxyGet "mService" "$greet"] fresh.

(** The caller after its first call has left in a batch. *)
Definition one_call_sent : State :=
  run [GetProxy mService; ProxyCall "mService" "$greet" [JStr "World"];
       RunImmediate] fresh.

(** A proxy that is known and has bound nothing yet. *)
Definition proxy_known : State := run [GetProxy mService] fresh.

(** A throttle after two keys. *)
Definition two_keys : Throttle.t :=
  Throttle.run [Throttle.Update (Some "a"); Throttle.Update (Some "b")]
    Throttle.new.

(** * Properties *)

(** ** Strings and characters *)

Lemma MAX_SAFE_is_2_53 : MAX_SAFE = (2 ^ 53)%N.
Proof. reflexivity. Qed.

Lemma append_assoc (a b c : string) : (a +:+ b) +:+ c = a +:+ (b +:+ c).
Proof. induction a as [|x a IH]; simpl; [reflexivity | by rewrite IH]. Qed.

Lemma append_nil_r (a : string) : a +:+ EmptyString = a.
Proof. induction a as [|x a IH]; simpl; [reflexivity | by rewrite IH]. Qed.

Lemma length_append (a b : string) :
  String.length (a +:+ b) = (String.length a + String.length b)%nat.
Proof. induction a as [|x a IH]; simpl; [reflexivity | by rewrite IH]. Qed.

Lemma chr_code (c : ascii) : chr (code c) = c.
Proof. apply ascii_N_embedding. Qed.

Lemma code_chr (n : N) : (n < 256)%N -> code (chr n) = n.
Proof. apply N_ascii_embedding. Qed.

Lemma code_bounded (c : ascii) : (code c < 256)%N.
Proof. apply N_ascii_bounded. Qed.

Lemma code_inj (a b : ascii) : code a = code b -> a = b.
Proof. intros H. by rewrite <- (chr_code a), <- (chr_code b), H. Qed.

(** ** Reading back what [quote] writes *)

Lemma dquote_bits : dquote = Ascii false true false false false true false false.
Proof. reflexivity. Qed.

Lemma parse_chars_quote_chars (s rest : string) :
  parse_chars (quote_chars s +:+ String dquote rest) = Some (s, rest).
Proof.
  rewrite dquote_bits.
  induction s as [|c s IH]; [reflexivity|].
  change (quote_chars (String c s)) with (quote_char c +:+ quote_chars s).
  rewrite append_assoc.
  destruct c as [[] [] [] [] [] [] [] []];
    match goal with
    | |- context [quote_char ?c] =>
        let x := eval vm_compute in (quote_char c) in
        change (quote_char c) with x
    end; simpl; rewrite IH; reflexivity.
Qed.

Lemma parse_quote (s rest : string) :
  parse_chars (quote_chars s +:+ str1 dquote +:+ rest) = Some (s, rest).
Proof. apply parse_chars_quote_chars. Qed.

(** ** Reading back what [String] writes for a number *)

Lemma parse_digits_string_of_uint (d : uint) (rest : string) :
  parse_digits rest = (Nil, rest) ->
  parse_digits (NilEmpty.string_of_uint d +:+ rest) = (d, rest).
Proof.
  intros Hrest. induction d; simpl; [done | by rewrite IHd ..].
Qed.

Lemma unorm_head_zero (d d' : uint) : unorm d = D0 d' -> d' = Nil.
Proof.
  unfold unorm. destruct (nzhead d) eqn:E; try discriminate.
  - by intros [= <-].
  - by destruct (nzhead_nonzero d u).
Qed.

Lemma to_uint_normal (n : N) : unorm (N.to_uint n) = N.to_uint n.
Proof. by rewrite <- (DecimalN.Unsigned.to_of (N.to_uint n)), DecimalN.Unsigned.of_to. Qed.

Lemma to_uint_not_nil (n : N) : N.to_uint n <> Nil.
Proof. rewrite <- to_uint_normal. apply unorm_nonnil. Qed.

Lemma to_uint_no_leading_zero (n : N) : leading_zero (N.to_uint n) = false.
Proof.
  destruct (N.to_uint n) as [|d| | | | | | | | |] eqn:E; try reflexivity.
  pose proof (to_uint_normal n) as H. rewrite E in H.
  apply unorm_head_zero in H. by subst.
Qed.

Lemma parse_unsigned_string_of_N (n : N) (rest : string) :
  (n < MAX_SAFE)%N -> no_digit rest ->
  parse_unsigned (string_of_N n +:+ rest) = Some (n, rest).
Proof.
  intros Hn [Hd Hc]. unfold parse_unsigned, string_of_N.
  rewrite parse_digits_string_of_uint by done.
  pose proof (to_uint_not_nil n) as Hnil.
  rewrite to_uint_no_leading_zero, Hc, DecimalN.Unsigned.of_to. simpl.
  apply N.ltb_lt in Hn. rewrite Hn.
  by destruct (N.to_uint n).
Qed.

(** The first character of a decimal numeral is a digit. *)
Lemma string_of_N_head (n : N) :
  exists c r, string_of_N n = String c r /\ (48 <= code c <= 57)%N.
Proof.
  unfold string_of_N. pose proof (to_uint_not_nil n) as Hnil.
  destruct (N.to_uint n); [done | simpl; eexists _, _; split; [reflexivity | vm_compute; split; discriminate] ..].
Qed.

Lemma parse_number_string_of_N (n : N) (rest : string) :
  (n < MAX_SAFE)%N -> no_digit rest ->
  parse_number (string_of_N n +:+ rest) = Some (Z.of_N n, rest).
Proof.
  intros Hn Hrest.
  pose proof (parse_unsigned_string_of_N n rest Hn Hrest) as H.
  destruct (string_of_N_head n) as (c & r & E & Hc).
  unfold parse_number. rewrite E in *. simpl String.append in *.
  rewrite H. destruct (N.eqb_spec (code c) 45); [lia | reflexivity].
Qed.

Lemma parse_number_string_of_Z (z : Z) (rest : string) :
  Z.abs z < Z.of_N MAX_SAFE -> no_digit rest ->
  parse_number (string_of_Z z +:+ rest) = Some (z, rest).
Proof.
  intros Hz Hrest.
  destruct z as [|p|p]; simpl string_of_Z.
  - by rewrite (parse_number_string_of_N 0).
  - rewrite (parse_number_string_of_N (N.pos p)); [done | lia | done].
  - unfold parse_number. simpl.
    rewrite parse_unsigned_string_of_N; [done | lia | done].
Qed.

(** The first character of a numeral is a digit or the minus sign. *)
Lemma string_of_Z_head (z : Z) :
  exists c r, string_of_Z z = String c r /\
              ((48 <= code c <= 57)%N \/ code c = 45%N).
Proof.
  destruct z as [|p|p]; simpl string_of_Z.
  - destruct (string_of_N_head 0) as (c & r & E & Hc); eauto 6.
  - destruct (string_of_N_head (N.pos p)) as (c & r & E & Hc); eauto 6.
  - eexists _, _; split; [reflexivity | by right].
Qed.

(** ** Reading back what [JSON.stringify] writes *)

Lemma parse_value_S (f : nat) (s : string) :
  parse_value (S f) s =
  match skip_ws s with
  | EmptyString => None
  | String c r =>
      let n := code c in
      if (n =? 123)%N then
        match skip_ws r with
        | EmptyString => None
        | String c' r' =>
            if (code c' =? 125)%N then Some (JObj [], r')
            else parse_members f [] r
        end
      else if (n =? 91)%N then
        match skip_ws r with
        | EmptyString => None
        | String c' r' =>
            if (code c' =? 93)%N then Some (JArr [], r')
            else prod_map JArr id <$> parse_elements f r
        end
      else if (n =? 34)%N then prod_map JStr id <$> parse_chars r
      else if (n =? 116)%N then pair (JBool true) <$> strip_prefix "rue" r
      else if (n =? 102)%N then pair (JBool false) <$> strip_prefix "alse" r
      else if (n =? 110)%N then pair JNull <$> strip_prefix "ull" r
      else prod_map JNum id <$> parse_number (String c r)
  end.
Proof. reflexivity. Qed.

Lemma parse_elements_S (f : nat) (s : string) :
  parse_elements (S f) s =
  match parse_value f s with
  | None => None
  | Some (v, r) =>
      match skip_ws r with
      | EmptyString => None
      | String c r' =>
          if (code c =? 44)%N
          then prod_map (cons v) id <$> parse_elements f r'
          else if (code c =? 93)%N then Some ([v], r')
          else None
      end
  end.
Proof. reflexivity. Qed.

Lemma parse_members_S (f : nat) (acc : list (string * JSON)) (s : string) :
  parse_members (S f) acc s =
  match skip_ws s with
  | EmptyString => None
  | String c r =>
      if (code c =? 34)%N then
        match parse_chars r with
        | None => None
        | Some (k, r1) =>
            match skip_ws r1 with
            | EmptyString => None
            | String c1 r2 =>
                if (code c1 =? 58)%N then
                  match parse_value f r2 with
                  | None => None
                  | Some (v, r3) =>
                      match skip_ws r3 with
                      | EmptyString => None
                      | String c3 r4 =>
                          if (code c3 =? 44)%N
                          then parse_members f (set_prop k v acc) r4
                          else if (code c3 =? 125)%N
                          then Some (JObj (set_prop k v acc), r4)
                          else None
                      end
                  end
                else None
            end
        end
      else None
  end.
Proof. reflexivity. Qed.

Lemma no_digit_empty : no_digit EmptyString.
Proof. by split. Qed.

Lemma no_digit_comma (r : string) : no_digit (String "," r).
Proof. by split. Qed.

Lemma no_digit_bracket (r : string) : no_digit (String "]" r).
Proof. by split. Qed.

Lemma no_digit_brace (r : string) : no_digit (String "}" r).
Proof. by split. Qed.

Lemma no_digit_dquote (r : string) : no_digit (String dquote r).
Proof. by split. Qed.

Lemma quote_cons (s : string) : quote s = String dquote (quote_chars s +:+ str1 dquote).
Proof. reflexivity. Qed.

(** No value starts with white space or with a closing bracket. *)
Lemma stringify_head (v : JSON) :
  exists c r, stringify v = String c r /\ is_ws c = false /\
              (code c =? 93)%N = false.
Proof.
  destruct v as [|[]|z|s|l|ps]; simpl; try by eexists _, _.
  destruct (string_of_Z_head z) as (c & r & E & Hc).
  exists c, r. split; [done|]. unfold is_ws.
  destruct Hc as [Hc | ->]; [|done].
  repeat match goal with
         | |- context [(?a =? ?b)%N] => destruct (N.eqb_spec a b); [lia|]
         end.
  done.
Qed.

Lemma skip_ws_stringify (v : JSON) (rest : string) :
  skip_ws (stringify v +:+ rest) = stringify v +:+ rest.
Proof.
  destruct (stringify_head v) as (c & r & -> & Hws & _).
  simpl. by rewrite Hws.
Qed.

Lemma parse_elements_concat (l : list JSON) :
  l <> [] -> Forall reads_back l ->
  forall (fuel : nat) (rest : string),
    (list_sum (map (fun x => S (size x)) l) <= fuel)%nat ->
    parse_elements fuel
      (String.concat "," (map stringify l) +:+ String "]" rest)
    = Some (l, rest).
Proof.
  intros Hne Hall. induction Hall as [|x l Hx Hl IH]; [done|].
  intros fuel rest Hfuel. simpl in Hfuel.
  destruct fuel as [|f]; [lia|]. rewrite parse_elements_S.
  destruct l as [|y l].
  - simpl. rewrite Hx by (apply no_digit_bracket || lia). reflexivity.
  - change (String.concat "," (map stringify (x :: y :: l)))
      with (stringify x +:+ "," +:+ String.concat "," (map stringify (y :: l))).
    rewrite !append_assoc. simpl String.append at 2.
    rewrite Hx by (apply no_digit_comma || lia).
    simpl skip_ws. cbv iota beta.
    change (code "," =? 44)%N with true. cbv iota.
    rewrite IH; [done | done | simpl in *; lia].
Qed.

Lemma set_prop_fresh (k : string) (v : JSON) (ps : list (string * JSON)) :
  k ∉ map fst ps -> set_prop k v ps = ps ++ [(k, v)].
Proof.
  induction ps as [|[k' v'] ps IH]; intros Hk; [reflexivity|].
  simpl in *. apply not_elem_of_cons in Hk as [Hne Hk].
  destruct (String.eqb_spec k k'); [done|]. by rewrite IH.
Qed.


Lemma quote_append (s rest : string) :
  quote s +:+ rest = String dquote (quote_chars s +:+ String dquote rest).
Proof. unfold quote. simpl. by rewrite append_assoc. Qed.

Lemma parse_value_quote (f : nat) (s rest : string) :
  parse_value (S f) (quote s +:+ rest) = Some (JStr s, rest).
Proof.
  rewrite parse_value_S, quote_append.
  pose proof (parse_chars_quote_chars s rest) as H.
  rewrite dquote_bits in *. simpl. by rewrite H.
Qed.

Lemma parse_members_key (f : nat) (acc : list (string * JSON))
    (k tail : string) :
  parse_members (S f) acc (quote k +:+ String ":" tail) =
  match parse_value f tail with
  | None => None
  | Some (v, r3) =>
      match skip_ws r3 with
      | EmptyString => None
      | String c3 r4 =>
          if (code c3 =? 44)%N
          then parse_members f (set_prop k v acc) r4
          else if (code c3 =? 125)%N
          then Some (JObj (set_prop k v acc), r4)
          else None
      end
  end.
Proof.
  rewrite parse_members_S, quote_append.
  pose proof (parse_chars_quote_chars k (String ":" tail)) as H.
  rewrite dquote_bits in *. simpl. by rewrite H.
Qed.

Lemma parse_members_concat (ps : list (string * JSON)) :
  ps <> [] -> Forall (fun kv => reads_back (snd kv)) ps ->
  forall (fuel : nat) (acc : list (string * JSON)) (rest : string),
    (list_sum (map (fun kv => S (size (snd kv))) ps) <= fuel)%nat ->
    NoDup (map fst (acc ++ ps)) ->
    parse_members fuel acc
      (String.concat "," (map member ps) +:+ String "}" rest)
    = Some (JObj (acc ++ ps), rest).
Proof.
  intros Hne Hall. induction Hall as [|[k v] ps Hv Hps IH]; [done|].
  intros fuel acc rest Hfuel Hdup. simpl in Hfuel, Hv.
  destruct fuel as [|f]; [lia|].
  assert (Hk : set_prop k v acc = acc ++ [(k, v)]).
  { apply set_prop_fresh. rewrite map_app in Hdup.
    apply NoDup_app in Hdup as (_ & Hdis & _). intros Hin.
    apply (Hdis k Hin). simpl. left. }
  assert (Hm : forall X, member (k, v) +:+ X
                         = quote k +:+ String ":" (stringify v +:+ X)).
  { intros X. unfold member. simpl fst. simpl snd.
    by rewrite !append_assoc. }
  destruct ps as [|kv ps].
  - simpl String.concat. rewrite Hm, parse_members_key.
    rewrite Hv by (apply no_digit_brace || lia). simpl.
    by rewrite Hk.
  - change (String.concat "," (map member ((k, v) :: kv :: ps)))
      with (member (k, v) +:+ "," +:+ String.concat "," (map member (kv :: ps))).
    rewrite !append_assoc, Hm, parse_members_key. simpl String.append.
    rewrite Hv by (apply no_digit_comma || lia).
    simpl skip_ws. cbv iota beta.
    change (code "," =? 44)%N with true. cbv iota.
    rewrite Hk. rewrite IH; [by rewrite <- app_assoc | done | simpl in *; lia |].
    by rewrite <- app_assoc.
Qed.

Lemma wf_arr (l : list JSON) : wf (JArr l) = true -> Forall (fun x => wf x = true) l.
Proof. simpl. intros H. apply Forall_forall. intros x Hx. rewrite forallb_forall in H. apply H. by apply list_elem_of_In. Qed.

Lemma wf_obj (ps : list (string * JSON)) :
  wf (JObj ps) = true ->
  NoDup (map fst ps) /\ Forall (fun kv => wf (snd kv) = true) ps.
Proof.
  simpl. intros [Hd H]%andb_prop. split.
  - by apply bool_decide_eq_true in Hd.
  - apply Forall_forall. intros x Hx. rewrite forallb_forall in H.
    apply H. by apply list_elem_of_In.
Qed.

Lemma parse_value_bracket (f : nat) (r : string) :
  parse_value (S f) (String "[" r) =
  match skip_ws r with
  | EmptyString => None
  | String c' r' =>
      if (code c' =? 93)%N then Some (JArr [], r')
      else prod_map JArr id <$> parse_elements f r
  end.
Proof. reflexivity. Qed.

Lemma parse_value_brace (f : nat) (r : string) :
  parse_value (S f) (String "{" r) =
  match skip_ws r with
  | EmptyString => None
  | String c' r' =>
      if (code c' =? 125)%N then Some (JObj [], r')
      else parse_members f [] r
  end.
Proof. reflexivity. Qed.

Lemma stringify_arr_append (l : list JSON) (rest : string) :
  stringify (JArr l) +:+ rest =
  String "[" (String.concat "," (map stringify l) +:+ String "]" rest).
Proof. simpl. by rewrite append_assoc. Qed.

Lemma stringify_obj_append (ps : list (string * JSON)) (rest : string) :
  stringify (JObj ps) +:+ rest =
  String "{" (String.concat "," (map member ps) +:+ String "}" rest).
Proof. simpl. by rewrite append_assoc. Qed.

Lemma member_append (kv : string * JSON) (X : string) :
  member kv +:+ X =
  String dquote
    (quote_chars (fst kv) +:+ String dquote (String ":" (stringify (snd kv) +:+ X))).
Proof. unfold member. by rewrite !append_assoc, quote_append. Qed.

Lemma members_head (kv : string * JSON) (ps : list (string * JSON)) (X : string) :
  exists r, String.concat "," (map member (kv :: ps)) +:+ X = String dquote r.
Proof.
  destruct ps as [|kv' ps].
  - simpl String.concat. rewrite member_append. by eexists.
  - change (String.concat "," (map member (kv :: kv' :: ps)))
      with (member kv +:+ "," +:+ String.concat "," (map member (kv' :: ps))).
    rewrite append_assoc, member_append. by eexists.
Qed.

Theorem parse_value_stringify (v : JSON) : wf v = true -> reads_back v.
Proof.
  induction v as [|b|z|s|l IH|ps IH] using JSON_nested_ind;
    intros Hwf fuel rest Hfuel Hrest;
    (destruct fuel as [|f]; [simpl in Hfuel; lia|]).
  - reflexivity.
  - by destruct b.
  - rewrite parse_value_S.
    simpl in Hwf. apply Z.ltb_lt in Hwf.
    pose proof (parse_number_string_of_Z z rest Hwf Hrest) as Hnum.
    simpl stringify in *.
    destruct (string_of_Z_head z) as (c & r & E & Hc).
    rewrite E in *. simpl String.append in *.
    assert (Hws : is_ws c = false).
    { unfold is_ws. destruct Hc as [Hc | ->]; [|done].
      repeat match goal with
             | |- context [(?a =? ?b)%N] => destruct (N.eqb_spec a b); [lia|]
             end. done. }
    simpl skip_ws. rewrite Hws. cbv zeta.
    repeat match goal with
           | |- context [(code c =? ?b)%N] =>
               destruct (N.eqb_spec (code c) b); [lia|]
           end.
    by rewrite Hnum.
  - apply parse_value_quote.
  - apply wf_arr in Hwf.
    assert (Hall : Forall reads_back l).
    { apply Forall_forall. intros x Hx. rewrite Forall_forall in IH, Hwf. auto. }
    rewrite stringify_arr_append, parse_value_bracket.
    destruct l as [|x l]; [reflexivity|].
    rewrite parse_elements_concat; [|done|done|simpl in *; lia].
    destruct (stringify_head x) as (c & r & E & Hws & Hc).
    destruct l; simpl String.concat; rewrite E; simpl; by rewrite Hws, Hc.
  - apply wf_obj in Hwf as [Hdup Hwf].
    assert (Hall : Forall (fun kv => reads_back (snd kv)) ps).
    { apply Forall_forall. intros x Hx. rewrite Forall_forall in IH, Hwf. auto. }
    rewrite stringify_obj_append, parse_value_brace.
    destruct ps as [|kv ps]; [reflexivity|].
    pose proof (parse_members_concat (kv :: ps) ltac:(done) Hall f [] rest
                  ltac:(simpl in *; lia) Hdup) as Hmem.
    destruct (members_head kv ps (String "}" rest)) as [r E]. rewrite E in *.
    rewrite dquote_bits. simpl. rewrite <- dquote_bits. exact Hmem.
Qed.

Lemma concat_length_bound {A : Type} (g : A -> string) (w : A -> nat)
    (items : list A) :
  Forall (fun a => (w a <= String.length (g a))%nat) items ->
  (list_sum (map (fun a => S (w a)) items)
   <= S (String.length (String.concat "," (map g items))))%nat.
Proof.
  induction 1 as [|a items Ha Hall IH]; [simpl; lia|].
  destruct items as [|b items].
  - simpl. lia.
  - change (String.concat "," (map g (a :: b :: items)))
      with (g a +:+ "," +:+ String.concat "," (map g (b :: items))).
    rewrite !length_append. simpl in *. lia.
Qed.

Lemma size_le_length (v : JSON) : (size v <= String.length (stringify v))%nat.
Proof.
  induction v as [|b|z|s|l IH|ps IH] using JSON_nested_ind.
  - simpl. lia.
  - destruct b; simpl; lia.
  - simpl. destruct (string_of_Z_head z) as (c & r & -> & _). simpl. lia.
  - simpl. lia.
  - pose proof (concat_length_bound stringify size l IH) as H.
    pose proof (stringify_arr_append l EmptyString) as E.
    rewrite append_nil_r in E. rewrite E.
    simpl. rewrite length_append. simpl. lia.
  - assert (IH' : Forall (fun kv => (size (snd kv) <= String.length (member kv))%nat) ps).
    { eapply Forall_impl; [exact IH|]. intros kv Hkv. simpl in Hkv.
      unfold member. rewrite !length_append. lia. }
    pose proof (concat_length_bound member (fun kv => size (snd kv)) ps IH') as H.
    pose proof (stringify_obj_append ps EmptyString) as E.
    rewrite append_nil_r in E. rewrite E.
    simpl. rewrite length_append. simpl. lia.
Qed.

(** [JSON.parse (JSON.stringify v)] is [v]. *)
Theorem JSON_parse_stringify (v : JSON) :
  wf v = true -> JSON_parse (stringify v) = Some v.
Proof.
  intros Hwf. unfold JSON_parse.
  pose proof (parse_value_stringify v Hwf
                (S (String.length (stringify v))) EmptyString) as H.
  rewrite append_nil_r in H. rewrite H; [done | | apply no_digit_empty].
  pose proof (size_le_length v). lia.
Qed.

(** ** The multiplexer *)





(** ** The message texts *)

Lemma quote_chars_plain (s : string) : plain s = true -> quote_chars s = s.
Proof.
  induction s as [|c s IH]; [reflexivity|]. simpl.
  intros [Hc Hs]%andb_prop. rewrite IH by done.
  unfold plain_char in Hc. unfold quote_char.
  apply andb_prop in Hc as [[H1 H2]%andb_prop H3].
  apply negb_true_iff in H1, H2, H3. rewrite H1, H2.
  apply N.ltb_ge in H3.
  repeat match goal with
         | |- context [(code c =? ?b)%N] =>
             destruct (N.eqb_spec (code c) b); [lia|]
         end.
  destruct (N.ltb_spec (code c) 32); [lia|]. reflexivity.
Qed.

Lemma lit_plain (s : string) : plain s = true -> lit s = quote s.
Proof. intros H. unfold lit, quote. by rewrite quote_chars_plain. Qed.



Lemma replyOK_is_stringify (req : string) (res : Value) :
  plain req = true ->
  MessageFactory.replyOK req res = stringify (reply_object req res).
Proof.
  intros H. unfold MessageFactory.replyOK, reply_object.
  rewrite (lit_plain req) by done.
  change (lit "type") with (quote "type"). change (lit "id") with (quote "id").
  change (lit "res") with (quote "res").
  change (string_of_Z (MessageType.value MessageType.Reply))
    with (stringify (JNum 2)).
  destruct res as [j|]; cbn [present omap fmap option_fmap option_map fst snd
                             stringify map String.concat list_omap];
    rewrite !append_assoc; reflexivity.
Qed.

Lemma replyErr_is_stringify (req : string) (e : Error.t) :
  plain req = true ->
  MessageFactory.replyErr req (ErrorObject e)
  = stringify (replyErr_object req (serialized_object e)).
Proof.
  intros H. unfold MessageFactory.replyErr, replyErr_object.
  rewrite (lit_plain req) by done.
  change (lit "type") with (quote "type"). change (lit "id") with (quote "id").
  change (lit "err") with (quote "err").
  change (string_of_Z (MessageType.value MessageType.ReplyErr))
    with (stringify (JNum 3)).
  change (stringify_transformed (transformErrorForSerialization (ErrorObject e)))
    with (stringify (serialized_object e)).
  generalize (serialized_object e). intros j.
  cbn [stringify map fst snd String.concat].
  rewrite !append_assoc. reflexivity.
Qed.

Lemma replyErr_plain_is_stringify (req : string) (v : Value) :
  plain req = true ->
  MessageFactory.replyErr req (Plain v)
  = stringify (replyErr_object req JNull).
Proof.
  intros H. unfold MessageFactory.replyErr, replyErr_object.
  rewrite (lit_plain req) by done.
  change (lit "type") with (quote "type"). change (lit "id") with (quote "id").
  change (lit "err") with (quote "err").
  change (string_of_Z (MessageType.value MessageType.ReplyErr))
    with (stringify (JNum 3)).
  cbn [stringify map fst snd String.concat].
  rewrite !append_assoc. reflexivity.
Qed.

Lemma wf_js_or (a b : Value) :
  wf_value a = true -> wf_value b = true -> wf_value (js_or a b) = true.
Proof. unfold js_or. by destruct (truthy a). Qed.

Lemma wf_serialized_object (e : Error.t) :
  wf_error e = true -> wf (serialized_object e) = true.
Proof.
  unfold wf_error. intros [[[H1 H2]%andb_prop H3]%andb_prop H4]%andb_prop.
  pose proof (wf_js_or _ _ H4 H3) as H5. unfold serialized_object.
  destruct (Error.name e), (Error.message e),
    (js_or (Error.stacktrace e) (Error.stack e));
    cbn [present omap list_omap fmap option_fmap option_map fst snd wf map forallb];
    simpl in H1, H2, H5; rewrite ?H1, ?H2, ?H5; reflexivity.
Qed.

Lemma serialized_object_props (e : Error.t) :
  get_prop (serialized_object e) "$isError" = Some (JBool true) /\
  get_prop (serialized_object e) "name" = Error.name e /\
  get_prop (serialized_object e) "message" = Error.message e /\
  get_prop (serialized_object e) "stack"
    = js_or (Error.stacktrace e) (Error.stack e).
Proof.
  unfold serialized_object.
  destruct (Error.name e), (Error.message e),
    (js_or (Error.stacktrace e) (Error.stack e)); by cbn.
Qed.

Lemma wf_replyErr_object (req : string) (j : JSON) :
  wf j = true -> wf (replyErr_object req j) = true.
Proof.
  intros H. unfold replyErr_object. cbn [wf map fst snd forallb].
  rewrite H. reflexivity.
Qed.

(** C5, amended: [replyErr] writes an instance of [Error] as the object
    [{$isError: true, name, message, stack}], where [stack] is the [stacktrace]
    of the error when it has one and its [stack] otherwise, and a property
    that is [undefined] is left out; every other error value, [null] and
    [undefined] included, it writes as [null].  Only
    [transformErrorForSerialization] returns such a value as it is, and
    [replyErr] does not call it then. *)
Theorem replyErr_encoding (req : string) (e : Error.t) (v : Value) :
  plain req = true -> wf_error e = true ->
  JSON_parse (MessageFactory.replyErr req (ErrorObject e))
    = Some (JObj [("type", JNum 3); ("id", JStr req);
                  ("err", JObj (present
                     [("$isError", Some (JBool true));
                      ("name", Error.name e);
                      ("message", Error.message e);
                      ("stack", js_or (Error.stacktrace e) (Error.stack e))]))]) /\
  JSON_parse (MessageFactory.replyErr req (Plain v))
    = Some (JObj [("type", JNum 3); ("id", JStr req); ("err", JNull)]) /\
  transformErrorForSerialization (Plain v) = AsIs v.
Proof.
  intros Hreq He. split; [|split; [|reflexivity]].
  - rewrite replyErr_is_stringify by done. apply JSON_parse_stringify.
    by apply wf_replyErr_object, wf_serialized_object.
  - rewrite replyErr_plain_is_stringify by done. by apply JSON_parse_stringify.
Qed.

Lemma replyOK_decodes (req : string) (res : Value) :
  plain req = true -> wf_value res = true ->
  JSON_parse (MessageFactory.replyOK req res) = Some (reply_object req res) /\
  decode (reply_object req res)
    = Some (Known (Reply (ReplyMessage.mk req res))).
Proof.
  intros Hreq Hres. split.
  - rewrite replyOK_is_stringify by done. apply JSON_parse_stringify.
    destruct res as [j|]; [|reflexivity]. simpl in Hres.
    unfold reply_object.
    cbn [present omap list_omap fmap option_fmap option_map fst snd wf map forallb].
    rewrite Hres. reflexivity.
  - by destruct res.
Qed.

(** A reply written for a call id that needs no escaping reads back as a
    Reply or a ReplyErr for that call id. *)
Lemma reply_carries_call_id (callId : string) (o : Settlement) :
  plain callId = true -> wf_settlement o = true ->
  exists msg : RPCMessage,
    JSON_parse (reply_of callId o) ≫= decode = Some (Known msg) /\
    reply_id msg = Some callId.
Proof.
  intros Hid Ho. destruct o as [r | [e | v]]; simpl in Ho; unfold reply_of.
  - destruct (replyOK_decodes callId r Hid Ho) as [-> Hd].
    eexists. split; [exact Hd | reflexivity].
  - rewrite replyErr_is_stringify by done.
    rewrite JSON_parse_stringify
      by (by apply wf_replyErr_object, wf_serialized_object).
    eexists. split; [reflexivity | reflexivity].
  - rewrite replyErr_plain_is_stringify by done.
    rewrite JSON_parse_stringify by done.
    eexists. split; [reflexivity | reflexivity].
Qed.

(** ** Replies *)

Lemma decode_replyErr_object (req : string) (j : JSON) :
  decode (replyErr_object req j)
  = Some (Known (ReplyErr (ReplyErrMessage.mk req (Some j)))).
Proof. reflexivity. Qed.

(** C6, amended: an instance of [Error] sent by [replyErr] under a call id
    that is pending at the receiver rejects the caller's [LazyPromise] with
    an error whose [name] and [message] are those of the sender's error and
    whose [stack] is the sender's [stacktrace] when that is set, and the
    sender's [stack] otherwise. *)
Theorem error_round_trip (s : State) (callId : string) (addr : nat) (e : Error.t) :
  isDisposed s = false -> plain callId = true -> wf_error e = true ->
  pendingRPCReplies s !! callId = Some addr ->
  heap s !! addr = Some Pending ->
  exists (s' : State) (e' : Error.t),
    receiveOneMessage (MessageFactory.replyErr callId (ErrorObject e)) s = Some s' /\
    heap s' !! addr = Some (ResolvedErr (Some e')) /\
    Error.name e' = Error.name e /\
    Error.message e' = Error.message e /\
    Error.stack e' = js_or (Error.stacktrace e) (Error.stack e).
Proof.
  intros Hd Hplain Hwf Hpending Hheap.
  destruct (serialized_object_props e) as (Pis & Pname & Pmsg & Pstack).
  eexists _, (error_of_serialized (serialized_object e)).
  split; [|split; [|by repeat split]].
  - unfold receiveOneMessage. rewrite Hd.
    rewrite replyErr_is_stringify by done.
    rewrite JSON_parse_stringify
      by (by apply wf_replyErr_object, wf_serialized_object).
    rewrite decode_replyErr_object. reflexivity.
  - unfold dispatch, receiveReplyErr. cbn [ReplyErrMessage.id ReplyErrMessage.err].
    rewrite Hpending, Pis.
    change (truthy (Some (serialized_object e))) with true.
    cbn [truthy andb heap set_heap set_pendingRPCReplies].
    rewrite list_lookup_alter_eq, Hheap. reflexivity.
Qed.

Lemma receiveReply_absent (msg : ReplyMessage.t) (s : State) :
  pendingRPCReplies s !! ReplyMessage.id msg = None -> receiveReply msg s = s.
Proof. intros H. unfold receiveReply. by rewrite H. Qed.

Lemma receiveReplyErr_absent (msg : ReplyErrMessage.t) (s : State) :
  pendingRPCReplies s !! ReplyErrMessage.id msg = None ->
  receiveReplyErr msg s = s.
Proof. intros H. unfold receiveReplyErr. by rewrite H. Qed.

Lemma receiveReply_removes (msg : ReplyMessage.t) (s : State) :
  pendingRPCReplies (receiveReply msg s) !! ReplyMessage.id msg = None.
Proof.
  unfold receiveReply.
  destruct (pendingRPCReplies s !! ReplyMessage.id msg) eqn:E; [|done].
  cbn. apply lookup_delete_eq.
Qed.

Lemma receiveReplyErr_removes (msg : ReplyErrMessage.t) (s : State) :
  pendingRPCReplies (receiveReplyErr msg s) !! ReplyErrMessage.id msg = None.
Proof.
  unfold receiveReplyErr.
  destruct (pendingRPCReplies s !! ReplyErrMessage.id msg) eqn:E; [|done].
  cbn. apply lookup_delete_eq.
Qed.

(** C8: a Reply or a ReplyErr whose call id has no entry among the pending
    replies leaves the whole state as it is: no [LazyPromise] is settled, no
    entry is added or removed, nothing is sent.  Both functions are total:
    they return and raise nothing. *)
Theorem stray_reply_ignored (s : State) (callId : string) (res err : Value) :
  pendingRPCReplies s !! callId = None ->
  receiveReply (ReplyMessage.mk callId res) s = s /\
  receiveReplyErr (ReplyErrMessage.mk callId err) s = s.
Proof.
  intros H. split; [by apply receiveReply_absent | by apply receiveReplyErr_absent].
Qed.

(** ** Requests *)





Lemma foldl_delete_lookup (jobs : list Job) (m : gmap string HandlerPromise)
    (k : string) :
  m !! k = None ->
  foldl (fun m j => delete (job_callId j) m) m jobs !! k = None.
Proof.
  revert m. induction jobs as [|j jobs IH]; intros m H; [done|].
  simpl. apply IH. destruct (decide (job_callId j = k)) as [->|Hne].
  - apply lookup_delete_eq.
  - by rewrite lookup_delete_ne.
Qed.


Lemma receiveRequest_spec (msg : RequestMessage.t) (s : State) :
  receiveRequest msg s =
  let callId := RequestMessage.id msg in
  let r := doInvokeHandler (RequestMessage.proxyId msg)
             (RequestMessage.method msg) (RequestMessage.args msg) s in
  let h := handler_promise (fst r) in
  then_reply h callId
    (set_invokedHandlers (<[callId := h]> (invokedHandlers (snd r))) (snd r)).
Proof.
  unfold receiveRequest, invokeHandler.
  by destruct (doInvokeHandler _ _ _ s) as [[r|e|p] s1].
Qed.







(** ** What the operations leave alone *)

Lemma handled_refl (s : State) : handled s s.
Proof. by repeat split. Qed.

Lemma handled_trans (s1 s2 s3 : State) :
  handled s1 s2 -> handled s2 s3 -> handled s1 s3.
Proof.
  intros (A1 & A2 & A3 & A4 & A5) (B1 & B2 & B3 & B4 & B5).
  repeat split; try congruence. auto.
Qed.

Lemma receiveRequest_handled (msg : RequestMessage.t) (s : State) :
  handled s (receiveRequest msg s).
Proof.
  rewrite receiveRequest_spec. unfold doInvokeHandler, then_reply.
  repeat case_match; by repeat split.
Qed.

Lemma receiveReply_handled (msg : ReplyMessage.t) (s : State) :
  handled s (receiveReply msg s).
Proof.
  unfold receiveReply. case_match; [|apply handled_refl].
  repeat split. cbn. intros k a. rewrite lookup_delete_Some. by intros [_ ?].
Qed.

Lemma receiveReplyErr_handled (msg : ReplyErrMessage.t) (s : State) :
  handled s (receiveReplyErr msg s).
Proof.
  unfold receiveReplyErr. case_match; [|apply handled_refl].
  repeat split. cbn. intros k a. rewrite lookup_delete_Some. by intros [_ ?].
Qed.

Lemma receiveOneMessage_handled (rawmsg : string) (s s' : State) :
  receiveOneMessage rawmsg s = Some s' -> handled s s'.
Proof.
  unfold receiveOneMessage, dispatch. intros H.
  repeat case_match; simplify_eq;
    auto using handled_refl, receiveRequest_handled, receiveReply_handled,
      receiveReplyErr_handled.
Qed.

Lemma onMessage_handled (data : list string) (s : State) :
  handled s (onMessage data s).
Proof.
  revert s. induction data as [|rawmsg data IH]; intros s; [apply handled_refl|].
  simpl. destruct (receiveOneMessage rawmsg s) as [s'|] eqn:E; [|apply handled_refl].
  eapply handled_trans; [by eapply receiveOneMessage_handled | apply IH].
Qed.

(** No event changes the flag. *)
Lemma step_isDisposed (e : Event) (s : State) :
  isDisposed (step e s) = isDisposed s.
Proof.
  destruct e as [pid|pid name|pid name myArgs|data|p o| |]; simpl.
  - unfold getProxy. by case_match.
  - unfold proxy_get. by repeat case_match.
  - unfold proxy_get, call, remoteCall. repeat case_match; by simplify_eq.
  - apply onMessage_handled.
  - unfold settlePromise. by case_match.
  - unfold runMicrotask. by case_match.
  - reflexivity.
Qed.

Lemma run_isDisposed (es : list Event) (s : State) :
  isDisposed (run es s) = isDisposed s.
Proof.
  revert s. induction es as [|e es IH]; intros s; [done|].
  unfold run in *. simpl. by rewrite IH, step_isDisposed.
Qed.

Lemma remoteCall_disposed (proxyId methodName : string) (args : list JSON)
    (s : State) :
  isDisposed s = true ->
  remoteCall proxyId methodName args s = (RejectedWith (canceled (engine s)), s).
Proof. intros H. unfold remoteCall. by rewrite H. Qed.

(** C1, amended: the class has no operation that disposes an instance: no
    event changes [isDisposed], which the constructor sets to false.  In a
    state where [isDisposed] is set, [remoteCall] returns a promise rejected
    with the error of [canceled], whose name and message are ["Canceled"],
    and leaves the whole state as it is: no entry among the pending replies,
    nothing handed to the multiplexer. *)
Theorem disposed_remoteCall_rejects
    (s0 : State) (e : Event)
    (s : State) (proxyId methodName : string) (args : list JSON) :
  isDisposed s = true ->
  isDisposed (step e s0) = isDisposed s0 /\
  remoteCall proxyId methodName args s = (RejectedWith (canceled (engine s)), s) /\
  Error.name (canceled (engine s)) = Some (JStr "Canceled") /\
  Error.message (canceled (engine s)) = Some (JStr "Canceled").
Proof.
  intros H. split; [apply step_isDisposed|].
  split; [by apply remoteCall_disposed | by split].
Qed.

(** ** Call ids *)

Lemma string_of_N_inj (a b : N) : string_of_N a = string_of_N b -> a = b.
Proof.
  unfold string_of_N. intros H. apply DecimalN.Unsigned.to_uint_inj.
  apply (f_equal NilEmpty.uint_of_string) in H.
  rewrite !NilEmpty.usu in H. congruence.
Qed.

Lemma increment_ge (n : N) : (n <= increment n)%N.
Proof. unfold increment. destruct (N.ltb_spec n MAX_SAFE); lia. Qed.

Lemma increment_pos (n : N) : (1 <= increment n)%N.
Proof.
  unfold increment. destruct (N.ltb_spec n MAX_SAFE); [lia|].
  unfold MAX_SAFE in *. lia.
Qed.

Lemma handled_pending_ok (s s' : State) :
  handled s s' -> pending_ok s -> pending_ok s'.
Proof.
  intros (_ & _ & Hn & _ & Hp) H k a Hk. rewrite Hn. by apply (H k a), Hp.
Qed.

Lemma handled_proxies_ok (s s' : State) :
  handled s s' -> proxies_ok s -> proxies_ok s'.
Proof. intros (_ & Hp & _) H. unfold proxies_ok. by rewrite Hp. Qed.

Lemma remoteCall_live (proxyId methodName : string) (args : list JSON)
    (s : State) :
  isDisposed s = false ->
  let callId := string_of_N (increment (lastMessageId s)) in
  let s' := snd (remoteCall proxyId methodName args s) in
  fst (remoteCall proxyId methodName args s) = Deferred (length (heap s)) /\
  lastMessageId s' = increment (lastMessageId s) /\
  pendingRPCReplies s' = <[callId := length (heap s)]> (pendingRPCReplies s) /\
  heap s' = heap s ++ [Pending] /\
  multiplexor s'
    = send (MessageFactory.request callId proxyId methodName args) (multiplexor s) /\
  isDisposed s' = false /\ proxies s' = proxies s.
Proof. intros H. unfold remoteCall. rewrite H. by repeat split. Qed.

Lemma remoteCall_pending_ok (proxyId methodName : string) (args : list JSON)
    (s : State) :
  pending_ok s -> pending_ok (snd (remoteCall proxyId methodName args s)).
Proof.
  intros H. destruct (isDisposed s) eqn:Hd.
  { by rewrite remoteCall_disposed. }
  destruct (remoteCall_live proxyId methodName args s Hd) as (_ & Hn & Hp & _).
  intros k a. rewrite Hn, Hp. intros Hk.
  pose proof (increment_ge (lastMessageId s)).
  pose proof (increment_pos (lastMessageId s)).
  destruct (decide (string_of_N (increment (lastMessageId s)) = k)) as [<-|Hne].
  - exists (increment (lastMessageId s)). split; [lia | done].
  - rewrite lookup_insert_ne in Hk by done.
    destruct (H k a Hk) as (n & Hn' & ->). exists n. split; [lia | done].
Qed.

Lemma remoteCall_proxies (proxyId methodName : string) (args : list JSON)
    (s : State) :
  proxies (snd (remoteCall proxyId methodName args s)) = proxies s.
Proof. unfold remoteCall. by destruct (isDisposed s). Qed.

Lemma handler_get_ok (proxyId : string) (target : gmap string RemoteFunction)
    (name : string) :
  (forall n f, target !! n = Some f ->
     starts_with_dollar n = true /\ f = {| fn_proxyId := proxyId; fn_name := n |}) ->
  forall n f, snd (handler_get proxyId target name) !! n = Some f ->
    starts_with_dollar n = true /\ f = {| fn_proxyId := proxyId; fn_name := n |}.
Proof.
  intros H n f. unfold handler_get. cbn.
  destruct (negb _ && starts_with_dollar name) eqn:E; [|apply H].
  apply andb_prop in E as [_ E].
  destruct (decide (name = n)) as [<-|Hne].
  - rewrite lookup_insert_eq. by intros [= <-].
  - rewrite lookup_insert_ne by done. apply H.
Qed.

Lemma proxy_get_proxies_ok (proxyId name : string) (s : State) :
  proxies_ok s -> proxies_ok (snd (proxy_get proxyId name s)).
Proof.
  intros H. unfold proxy_get.
  destruct (proxies s !! proxyId) as [target|] eqn:E; [|done].
  pose proof (handler_get_ok proxyId target name
                (fun n f => H proxyId target n f E)) as Hg.
  destruct (handler_get proxyId target name) as [f target']. cbn in *.
  intros pid t n g Hpid. cbn in Hpid.
  destruct (decide (proxyId = pid)) as [<-|Hne].
  - rewrite lookup_insert_eq in Hpid. injection Hpid as <-. apply Hg.
  - rewrite lookup_insert_ne in Hpid by done. by apply H.
Qed.

Lemma proxy_get_fields (proxyId name : string) (s : State) :
  let s' := snd (proxy_get proxyId name s) in
  isDisposed s' = isDisposed s /\ lastMessageId s' = lastMessageId s /\
  pendingRPCReplies s' = pendingRPCReplies s /\
  multiplexor s' = multiplexor s /\ heap s' = heap s.
Proof. unfold proxy_get. by repeat case_match. Qed.

Lemma step_invariant (e : Event) (s : State) :
  invariant s -> invariant (step e s).
Proof.
  intros (Hd & Hp & Hx). split; [by rewrite step_isDisposed|].
  destruct e as [pid|pid name|pid name myArgs|data|p o| |]; simpl.
  - unfold getProxy. cbv zeta.
    destruct (proxies s !! ProxyIdentifier.id pid) eqn:E; [done|].
    split; [done|]. intros pid' t n f. cbn.
    destruct (decide (ProxyIdentifier.id pid = pid')) as [<-|Hne].
    + rewrite lookup_insert_eq. by intros [= <-].
    + rewrite lookup_insert_ne by done. apply Hx.
  - split; [|by apply proxy_get_proxies_ok].
    destruct (proxy_get_fields pid name s) as (_ & Hn & Hq & _).
    unfold pending_ok. by rewrite Hn, Hq.
  - pose proof (proxy_get_proxies_ok pid name s Hx) as Hx'.
    destruct (proxy_get_fields pid name s) as (_ & Hn & Hq & _).
    assert (Hp' : pending_ok (snd (proxy_get pid name s))).
    { unfold pending_ok. by rewrite Hn, Hq. }
    destruct (proxy_get pid name s) as [[f|] s']; [|done]. cbn in *.
    unfold call. split; [by apply remoteCall_pending_ok|].
    unfold proxies_ok. by rewrite remoteCall_proxies.
  - pose proof (onMessage_handled data s) as H.
    split; [by eapply handled_pending_ok | by eapply handled_proxies_ok].
  - unfold settlePromise. by case_match.
  - unfold runMicrotask. by case_match.
  - done.
Qed.

Lemma new_invariant (captureStack : string -> Value)
    (actors : gmap string Actor) :
  invariant (new_RPCProtocolImpl captureStack actors).
Proof. split; [done|]. split; intros ? *; cbn; by rewrite lookup_empty. Qed.

Lemma run_invariant (es : list Event) (s : State) :
  invariant s -> invariant (run es s).
Proof.
  revert s. induction es as [|e es IH]; intros s H; [done|].
  unfold run in *. simpl. by apply IH, step_invariant.
Qed.

Lemma reachable_invariant (s : State) : reachable s -> invariant s.
Proof. intros (eng & actors & es & ->). apply run_invariant, new_invariant. Qed.

Lemma run_app (es1 es2 : list Event) (s : State) :
  run (es1 ++ es2) s = run es2 (run es1 s).
Proof. unfold run. apply foldl_app. Qed.

Lemma reachable_run (es : list Event) (s : State) :
  reachable s -> reachable (run es s).
Proof.
  intros (eng & actors & es0 & ->). exists eng, actors, (es0 ++ es).
  by rewrite run_app.
Qed.

Lemma step_lastMessageId (e : Event) (s : State) :
  (lastMessageId s <= lastMessageId (step e s))%N.
Proof.
  destruct e as [pid|pid name|pid name myArgs|data|p o| |]; simpl.
  - unfold getProxy. by case_match.
  - by destruct (proxy_get_fields pid name s) as (_ & -> & _).
  - destruct (proxy_get_fields pid name s) as (_ & Hn & _).
    destruct (proxy_get pid name s) as [[f|] s']; cbn in *; [|by rewrite Hn].
    rewrite <- Hn. unfold call. destruct (isDisposed s') eqn:Hd.
    + by rewrite remoteCall_disposed.
    + destruct (remoteCall_live (fn_proxyId f) (fn_name f) myArgs s' Hd)
        as (_ & -> & _).
      apply increment_ge.
  - by destruct (onMessage_handled data s) as (_ & _ & -> & _).
  - unfold settlePromise. by case_match.
  - unfold runMicrotask. by case_match.
  - done.
Qed.

Lemma run_lastMessageId (es : list Event) (s : State) :
  (lastMessageId s <= lastMessageId (run es s))%N.
Proof.
  revert s. induction es as [|e es IH]; intros s; [done|].
  unfold run in *. simpl. etrans; [apply (step_lastMessageId e)|apply IH].
Qed.

Lemma dispatch_reply_removes (msg : RPCMessage) (callId : string) (s : State) :
  reply_id msg = Some callId ->
  pendingRPCReplies (dispatch msg s) !! callId = None.
Proof.
  destruct msg as [m|m|m]; intros [= <-]; simpl;
    [apply receiveReply_removes | apply receiveReplyErr_removes].
Qed.

Lemma dispatch_reply_absent (msg : RPCMessage) (callId : string) (s : State) :
  reply_id msg = Some callId ->
  pendingRPCReplies s !! callId = None -> dispatch msg s = s.
Proof.
  destruct msg as [m|m|m]; intros [= <-] H; simpl;
    [by apply receiveReply_absent | by apply receiveReplyErr_absent].
Qed.


(** C9, amended: while the counter is below 2^53, [remoteCall] takes as
    call id the decimal form of the counter plus one and leaves the counter
    there; no entry is pending under that id, so the new entry replaces none
    and the table holds one entry for it; no later [remoteCall] of the
    session made below 2^53 takes the id again; and the first Reply or
    ReplyErr for the id removes its entry, after which a second one finds
    none and changes nothing. *)
Theorem call_id_fresh_and_removed_once
    (s : State) (proxyId methodName : string) (args : list JSON)
    (es : list Event) (first second : RPCMessage) :
  reachable s -> (lastMessageId s < MAX_SAFE)%N ->
  let callId := string_of_N (lastMessageId s + 1) in
  let s1 := snd (remoteCall proxyId methodName args s) in
  let later := run es s1 in
  lastMessageId s1 = (lastMessageId s + 1)%N /\
  pendingRPCReplies s !! callId = None /\
  pendingRPCReplies s1 = <[callId := length (heap s)]> (pendingRPCReplies s) /\
  ((lastMessageId later < MAX_SAFE)%N ->
   (lastMessageId s1 < lastMessageId (snd (remoteCall proxyId methodName args later)))%N /\
   string_of_N (lastMessageId (snd (remoteCall proxyId methodName args later)))
     <> callId) /\
  (reply_id first = Some callId -> reply_id second = Some callId ->
   pendingRPCReplies (dispatch first later) !! callId = None /\
   dispatch second (dispatch first later) = dispatch first later).
Proof.
  intros Hr Hlt callId s1 later.
  destruct (reachable_invariant s Hr) as (Hd & Hp & _).
  destruct (remoteCall_live proxyId methodName args s Hd) as (_ & Hn & Hq & _).
  assert (Hinc : increment (lastMessageId s) = (lastMessageId s + 1)%N).
  { unfold increment. by destruct (N.ltb_spec (lastMessageId s) MAX_SAFE); [|lia]. }
  rewrite Hinc in Hn, Hq. fold s1 in Hn, Hq. fold callId in Hq.
  split; [done|]. split; [|split; [done|split]].
  - destruct (pendingRPCReplies s !! callId) as [a|] eqn:E; [|done].
    destruct (Hp callId a E) as (n & Hn' & Heq).
    apply string_of_N_inj in Heq. lia.
  - intros Hlater.
    assert (Hdl : isDisposed later = false).
    { unfold later. rewrite run_isDisposed. unfold s1.
      by destruct (remoteCall_live proxyId methodName args s Hd) as (_ & _ & _ & _ & _ & ? & _). }
    destruct (remoteCall_live proxyId methodName args later Hdl) as (_ & Hn2 & _).
    rewrite Hn2. pose proof (run_lastMessageId es s1) as Hmono. fold later in Hmono.
    assert (Hinc2 : increment (lastMessageId later) = (lastMessageId later + 1)%N).
    { unfold increment. by destruct (N.ltb_spec (lastMessageId later) MAX_SAFE); [|lia]. }
    rewrite Hinc2. split; [lia|].
    intros Heq. apply string_of_N_inj in Heq. lia.
  - intros H1 H2. pose proof (dispatch_reply_removes first callId later H1) as Hgone.
    split; [done|]. by apply (dispatch_reply_absent second callId).
Qed.

(** ** Proxies *)

Lemma set_proxies_same (s : State) (proxyId : string)
    (target : gmap string RemoteFunction) :
  proxies s !! proxyId = Some target ->
  set_proxies (<[proxyId := target]> (proxies s)) s = s.
Proof. intros H. rewrite insert_id by done. by destruct s. Qed.

(** C10: on every proxy of a session, reading a property whose name does
    not start with the dollar sign gives [undefined] and changes nothing:
    no call id is taken, no entry is added, nothing is sent.  Only a name
    that starts with the dollar sign is bound, to the function that calls
    [remoteCall] with the proxy id, that name and its arguments; reading it
    does not send either. *)
Theorem proxy_binds_dollar_names_only (s : State) (proxyId name : string) :
  reachable s ->
  (starts_with_dollar name = false -> proxy_get proxyId name s = (None, s)) /\
  (forall f, fst (proxy_get proxyId name s) = Some f ->
     starts_with_dollar name = true /\
     forall myArgs s', call f myArgs s' = remoteCall proxyId name myArgs s') /\
  (starts_with_dollar name = true -> is_Some (proxies s !! proxyId) ->
   is_Some (fst (proxy_get proxyId name s))) /\
  multiplexor (snd (proxy_get proxyId name s)) = multiplexor s /\
  pendingRPCReplies (snd (proxy_get proxyId name s)) = pendingRPCReplies s /\
  lastMessageId (snd (proxy_get proxyId name s)) = lastMessageId s.
Proof.
  intros Hr. destruct (reachable_invariant s Hr) as (_ & _ & Hx).
  destruct (proxy_get_fields proxyId name s) as (_ & Hn & Hq & Hm & _).
  split; [|split; [|split; [|done]]].
  - intros Hname. unfold proxy_get.
    destruct (proxies s !! proxyId) as [target|] eqn:E; [|done].
    assert (Hnone : target !! name = None).
    { destruct (target !! name) as [f|] eqn:Ef; [|done].
      destruct (Hx proxyId target name f E Ef) as [Hdollar _]. congruence. }
    unfold handler_get. rewrite Hname, andb_false_r. cbv beta iota zeta.
    rewrite Hnone. by rewrite set_proxies_same.
  - intros f Hf.
    pose proof (proxy_get_proxies_ok proxyId name s Hx) as Hx'.
    unfold proxy_get in *.
    destruct (proxies s !! proxyId) as [target|] eqn:E; [|done].
    unfold handler_get in *. cbn in Hf.
    set (target' := if negb (bool_decide (is_Some (target !! name)))
                       && starts_with_dollar name
                    then <[name := {| fn_proxyId := proxyId; fn_name := name |}]> target
                    else target) in *.
    assert (Hp' : proxies (set_proxies (<[proxyId := target']> (proxies s)) s)
                  !! proxyId = Some target') by (cbn; apply lookup_insert_eq).
    destruct (Hx' proxyId target' name f Hp' Hf) as [Hdollar ->].
    by split.
  - intros Hname [target E]. unfold proxy_get. rewrite E.
    unfold handler_get. rewrite Hname, andb_true_r.
    destruct (target !! name) as [f|] eqn:Ef.
    + rewrite bool_decide_eq_true_2 by eauto. cbn. rewrite Ef. eauto.
    + rewrite bool_decide_eq_false_2 by (by intros [? ?]).
      cbn. rewrite lookup_insert_eq. eauto.
Qed.

(** The counter reaches every value up to 2^53. *)
Lemma reachable_counter (n : N) :
  (n <= MAX_SAFE)%N -> exists s, reachable s /\ lastMessageId s = n.
Proof.
  induction n as [|n IH] using N.peano_ind; intros Hn.
  - exists (new_RPCProtocolImpl (fun _ => None) ∅).
    split; [by exists (fun _ => None), ∅, []|done].
  - destruct IH as (s & Hr & Hs); [lia|].
    set (pid := createMainProxyIdentifier "Service").
    set (es := [GetProxy pid; ProxyCall (ProxyIdentifier.id pid) "$call" []]).
    exists (run es s). split; [by apply reachable_run|].
    destruct (reachable_invariant s Hr) as (Hd & _ & _).
    unfold run, es. cbn [foldl step].
    assert (Hg : is_Some (proxies (getProxy pid s) !! ProxyIdentifier.id pid)).
    { unfold getProxy. cbv zeta.
      destruct (proxies s !! ProxyIdentifier.id pid) eqn:E; [by rewrite E|].
      cbn. rewrite lookup_insert_eq. eauto. }
    assert (Hgd : isDisposed (getProxy pid s) = false).
    { unfold getProxy. by case_match. }
    assert (Hgn : lastMessageId (getProxy pid s) = lastMessageId s).
    { unfold getProxy. by case_match. }
    destruct (proxy_get_fields (ProxyIdentifier.id pid) "$call" (getProxy pid s))
      as (Hd' & Hn' & _).
    unfold proxy_get in *. destruct Hg as [target Ht]. rewrite Ht in *.
    destruct (handler_get (ProxyIdentifier.id pid) target "$call") as [f target'] eqn:Eh.
    assert (Hf : is_Some f).
    { unfold handler_get in Eh. injection Eh as <- <-.
      destruct (target !! "$call") as [g|] eqn:Eg.
      - rewrite bool_decide_eq_true_2 by eauto. cbn. rewrite Eg. eauto.
      - rewrite bool_decide_eq_false_2 by (by intros [? ?]).
        cbn. rewrite lookup_insert_eq. eauto. }
    destruct Hf as [g ->]. cbn [snd] in *. unfold call.
    match goal with
    | |- lastMessageId (snd (remoteCall ?p ?m ?a ?x)) = _ =>
        destruct (remoteCall_live p m a x) as (_ & -> & _);
        [congruence|]
    end.
    rewrite Hn', Hgn, Hs. unfold increment.
    destruct (N.ltb_spec n MAX_SAFE); lia.
Qed.

(** ** The properties at work *)

(** The exchange of the greeting: one batch with the Request, one batch
    with the Reply, and the caller's [LazyPromise] resolved with the
    greeting. *)
Example greet_exchange :
  let caller := run [RunImmediate] one_call in
  let request := MessageFactory.request "1" "mService" "$greet" [JStr "World"] in
  let callee := run [Deliver [request]; Microtask; RunImmediate] host in
  let reply := MessageFactory.replyOK "1" (Some (JStr "Hello, World")) in
  connection (multiplexor caller) = [[request]] /\
  connection (multiplexor callee) = [[reply]] /\
  heap (run [Deliver [reply]] caller) = [ResolvedOk (Some (JStr "Hello, World"))].
Proof. vm_compute. by repeat split. Qed.

Lemma disposed_remoteCall_rejects_witness :
  isDisposed (disposed two_calls) = true /\
  isDisposed (step Microtask two_calls) = isDisposed two_calls /\
  remoteCall "mService" "$c" [] (disposed two_calls)
    = (RejectedWith (canceled (engine (disposed two_calls))), disposed two_calls).
Proof.
  split; [reflexivity|].
  pose proof (disposed_remoteCall_rejects two_calls Microtask
                (disposed two_calls) "mService" "$c" [] eq_refl) as H.
  exact (conj (proj1 H) (proj1 (proj2 H))).
Defined.

(** C1 as stated fails: with two calls pending no sequence of events sets
    [isDisposed], and setting it by hand settles neither [LazyPromise] and
    removes neither entry. *)
Lemma no_operation_disposes :
  (forall es, isDisposed (run es two_calls) = false) /\
  heap (disposed two_calls) = [Pending; Pending] /\
  pendingRPCReplies (disposed two_calls) !! "1" = Some 0%nat /\
  pendingRPCReplies (disposed two_calls) !! "2" = Some 1%nat.
Proof.
  split; [intros es; by rewrite run_isDisposed|].
  vm_compute. by repeat split.
Qed.



(** The other case of C3: the actor is there, the method is not. *)
Example unknown_method_reply :
  queued (runMicrotasks
            (receiveRequest (RequestMessage.mk "8" "mService" "$nope" []) host))
  = [MessageFactory.replyErr "8"
       (ErrorObject (new_Error example_stack "Unknown method $nope on actor mService"))].
Proof. vm_compute. reflexivity. Qed.

Lemma replyErr_encoding_witness :
  plain "1" = true /\ wf_error traced_error = true /\
  JSON_parse (MessageFactory.replyErr "1" (ErrorObject traced_error))
    = Some (JObj [("type", JNum 3); ("id", JStr "1");
                  ("err", JObj [("$isError", JBool true);
                                ("name", JStr "Error");
                                ("message", JStr "boom");
                                ("stack", JStr "trace")])]) /\
  JSON_parse (MessageFactory.replyErr "1" (Plain (Some (JStr "boom"))))
    = Some (JObj [("type", JNum 3); ("id", JStr "1"); ("err", JNull)]) /\
  transformErrorForSerialization (Plain (Some (JStr "boom")))
    = AsIs (Some (JStr "boom")).
Proof.
  split; [reflexivity|]. split; [reflexivity|].
  exact (replyErr_encoding "1" traced_error (Some (JStr "boom")) eq_refl eq_refl).
Defined.

(** C5 as stated fails: an error value that is no [Error] does not pass
    through, the [err] of its message is [null]; and the key of the flag is
    [$isError], there is no [isError]. *)
Lemma replyErr_drops_plain_values :
  (exists j, JSON_parse (MessageFactory.replyErr "1" (Plain (Some (JStr "boom"))))
             = Some j /\
             get_prop j "err" = Some JNull /\
             get_prop j "err" <> Some (JStr "boom")) /\
  (exists j err,
      JSON_parse (MessageFactory.replyErr "1" (ErrorObject traced_error)) = Some j /\
      get_prop j "err" = Some err /\
      get_prop err "isError" = None /\
      get_prop err "$isError" = Some (JBool true)).
Proof.
  split.
  - eexists. split; [vm_compute; reflexivity|]. by split.
  - eexists _, _. split; [vm_compute; reflexivity|]. by repeat split.
Qed.

Lemma error_round_trip_witness :
  isDisposed one_call = false /\ plain "1" = true /\
  wf_error traced_error = true /\
  pendingRPCReplies one_call !! "1" = Some 0%nat /\
  heap one_call !! 0%nat = Some Pending /\
  exists (s' : State) (e' : Error.t),
    receiveOneMessage (MessageFactory.replyErr "1" (ErrorObject traced_error)) one_call
      = Some s' /\
    heap s' !! 0%nat = Some (ResolvedErr (Some e')) /\
    Error.name e' = Error.name traced_error /\
    Error.message e' = Error.message traced_error /\
    Error.stack e' = js_or (Error.stacktrace traced_error) (Error.stack traced_error).
Proof.
  assert (H1 : pendingRPCReplies one_call !! "1" = Some 0%nat)
    by (vm_compute; reflexivity).
  assert (H2 : heap one_call !! 0%nat = Some Pending) by (vm_compute; reflexivity).
  repeat (split; [first [exact H1 | exact H2 | reflexivity]|]).
  exact (error_round_trip one_call "1" 0 traced_error eq_refl eq_refl eq_refl H1 H2).
Defined.

(** C6 as stated fails: the error the caller is rejected with has the
    sender's [stacktrace] as its [stack], not the sender's [stack]. *)
Lemma received_stack_is_stacktrace :
  exists (s' : State) (e' : Error.t),
    receiveOneMessage (MessageFactory.replyErr "1" (ErrorObject traced_error)) one_call
      = Some s' /\
    heap s' !! 0%nat = Some (ResolvedErr (Some e')) /\
    Error.stack e' = Some (JStr "trace") /\
    Error.stack e' <> Error.stack traced_error.
Proof.
  eexists _, _. split; [vm_compute; reflexivity|].
  split; [vm_compute; reflexivity|]. by split.
Qed.



Lemma stray_reply_ignored_witness :
  pendingRPCReplies one_call !! "5" = None /\
  receiveReply (ReplyMessage.mk "5" (Some (JNum 1))) one_call = one_call /\
  receiveReplyErr (ReplyErrMessage.mk "5" None) one_call = one_call.
Proof.
  assert (H : pendingRPCReplies one_call !! "5" = None) by (vm_compute; reflexivity).
  split; [exact H|].
  exact (stray_reply_ignored one_call "5" (Some (JNum 1)) None H).
Defined.

Lemma fresh_reachable : reachable fresh.
Proof. by exists example_stack, ∅, []. Defined.

Lemma call_id_fresh_and_removed_once_witness :
  reachable fresh /\ (lastMessageId fresh < MAX_SAFE)%N /\
  lastMessageId (snd (remoteCall "mService" "$a" [] fresh)) = 1%N /\
  pendingRPCReplies fresh !! "1" = None /\
  pendingRPCReplies (snd (remoteCall "mService" "$a" [] fresh))
    = <["1" := 0%nat]> (pendingRPCReplies fresh).
Proof.
  split; [exact fresh_reachable|]. split; [reflexivity|].
  pose proof (call_id_fresh_and_removed_once fresh "mService" "$a" [] []
                (Reply (ReplyMessage.mk "1" None))
                (ReplyErr (ReplyErrMessage.mk "1" None))
                fresh_reachable eq_refl) as H.
  exact (conj (proj1 H) (conj (proj1 (proj2 H)) (proj1 (proj2 (proj2 H))))).
Defined.

(** C9 as stated fails: the counter is a double, and at 2^53 [++] leaves it
    where it is.  A session reaches that value, and from there on every
    [remoteCall] takes the call id 9007199254740992 again and replaces the
    entry of the call before it. *)
Lemma call_id_reused_at_2_53 :
  exists s : State,
    reachable s /\
    let s1 := snd (remoteCall "mService" "$a" [] s) in
    let s2 := snd (remoteCall "mService" "$b" [] s1) in
    lastMessageId s1 = lastMessageId s /\
    lastMessageId s2 = lastMessageId s1 /\
    pendingRPCReplies s1 !! "9007199254740992" = Some (length (heap s)) /\
    pendingRPCReplies s2 !! "9007199254740992" = Some (S (length (heap s))).
Proof.
  destruct (reachable_counter MAX_SAFE) as (s & Hr & Hn); [done|].
  exists s. split; [done|].
  destruct (reachable_invariant s Hr) as (Hd & _ & _).
  destruct (remoteCall_live "mService" "$a" [] s Hd)
    as (_ & Hn1 & Hp1 & Hh1 & _ & Hd1 & _).
  destruct (remoteCall_live "mService" "$b" []
              (snd (remoteCall "mService" "$a" [] s)) Hd1)
    as (_ & Hn2 & Hp2 & _).
  cbv zeta. rewrite Hn2, Hp2, Hn1, Hp1, Hh1, Hn.
  change (increment MAX_SAFE) with MAX_SAFE.
  change (string_of_N MAX_SAFE) with "9007199254740992".
  rewrite !lookup_insert_eq, length_app. cbn [length].
  repeat split. f_equal. lia.
Qed.

Lemma proxy_binds_dollar_names_only_witness :
  reachable (run [GetProxy mService] fresh) /\
  proxy_get "mService" "then" (run [GetProxy mService] fresh)
    = (None, run [GetProxy mService] fresh).
Proof.
  assert (H : reachable (run [GetProxy mService] fresh))
    by (by exists example_stack, ∅, [GetProxy mService]).
  split; [exact H|].
  exact (proj1 (proxy_binds_dollar_names_only
                  (run [GetProxy mService] fresh) "mService" "then" H) eq_refl).
Defined.

(** A name with the dollar sign is bound, and calling what it is bound to
    is [remoteCall]. *)
Example proxy_dollar_name :
  fst (proxy_get "mService" "$greet" (run [GetProxy mService] fresh))
  = Some {| fn_proxyId := "mService"; fn_name := "$greet" |}.
Proof. vm_compute. reflexivity. Qed.

(** * Further properties *)

(** ** The multiplexer over several turns *)

Lemma mux_step_ok (e : MuxEvent) (m : RPCMultiplexer) :
  mux_ok m -> mux_ok (mux_step e m).
Proof.
  intros [Hb Hi]. destruct m as [q i c]. simpl in *. destruct e as [msg|].
  - split; [done|]. simpl. destruct q as [|x q]; subst i; reflexivity.
  - unfold runImmediate. simpl. destruct i as [|[] i]; [by split|].
    destruct q as [|x q]; [done|]. injection Hi as ->.
    split; simpl; [|done]. apply Forall_app. split; [done|].
    by apply Forall_singleton.
Qed.

Lemma mux_step_log (e : MuxEvent) (m : RPCMultiplexer) :
  concat (connection (mux_step e m)) ++ messagesToSend (mux_step e m)
  = (concat (connection m) ++ messagesToSend m) ++ handed [e].
Proof.
  destruct e as [msg|]; simpl.
  - by rewrite app_assoc.
  - unfold runImmediate. destruct (immediates m) as [|[] i]; simpl.
    + by rewrite app_nil_r.
    + rewrite concat_app. simpl. by rewrite !app_nil_r.
Qed.

Lemma handed_app (es1 es2 : list MuxEvent) :
  handed (es1 ++ es2) = handed es1 ++ handed es2.
Proof. unfold handed. apply omap_app. Qed.

Lemma mux_run_ok (es : list MuxEvent) (m : RPCMultiplexer) :
  mux_ok m ->
  mux_ok (mux_run es m) /\
  concat (connection (mux_run es m)) ++ messagesToSend (mux_run es m)
  = (concat (connection m) ++ messagesToSend m) ++ handed es.
Proof.
  revert m. induction es as [|e es IH]; intros m Hm.
  - split; [done|]. simpl. by rewrite app_nil_r.
  - unfold mux_run in *. simpl foldl.
    destruct (IH (mux_step e m) (mux_step_ok e m Hm)) as [Hok Hlog].
    split; [done|]. rewrite Hlog, mux_step_log.
    change (e :: es) with ([e] ++ es). by rewrite handed_app, app_assoc.
Qed.

Lemma new_mux_ok : mux_ok new_RPCMultiplexer.
Proof. by split. Qed.

(** X1: over any run of sends and [setImmediate] callbacks from a new
    multiplexer, the batches handed to [connection.send], put end to end
    and followed by the messages still queued, are the messages handed to
    [send], in order: none is lost, repeated or moved.  No batch is empty,
    a flush is scheduled exactly when messages are queued, and one more
    callback puts every message on the connection. *)
Theorem multiplexer_keeps_order (es : list MuxEvent) :
  let m := mux_run es new_RPCMultiplexer in
  concat (connection m) ++ messagesToSend m = handed es /\
  Forall (fun batch => batch <> []) (connection m) /\
  immediates m = (if messagesToSend m is [] then [] else [sendAccumulatedBound]) /\
  concat (connection (runImmediate m)) = handed es /\
  messagesToSend (runImmediate m) = [].
Proof.
  intros m. destruct (mux_run_ok es new_RPCMultiplexer new_mux_ok) as [[Hb Hi] Hlog].
  fold m in Hb, Hi, Hlog. simpl in Hlog.
  split; [done|]. split; [done|]. split; [done|].
  unfold runImmediate. rewrite Hi.
  destruct (messagesToSend m) as [|x q] eqn:E.
  - rewrite E. by rewrite app_nil_r in Hlog.
  - simpl. rewrite concat_app. simpl. by rewrite app_nil_r.
Qed.

(** ** What handling a message leaves alone *)

Lemma receiveRequest_caller_side (msg : RequestMessage.t) (s : State) :
  multiplexor (receiveRequest msg s) = multiplexor s /\
  heap (receiveRequest msg s) = heap s /\
  pendingRPCReplies (receiveRequest msg s) = pendingRPCReplies s.
Proof.
  rewrite receiveRequest_spec. unfold doInvokeHandler, then_reply.
  repeat case_match; by repeat split.
Qed.

Lemma dispatch_multiplexor (msg : RPCMessage) (s : State) :
  multiplexor (dispatch msg s) = multiplexor s.
Proof.
  destruct msg as [m|m|m]; simpl.
  - apply receiveRequest_caller_side.
  - unfold receiveReply. by case_match.
  - unfold receiveReplyErr. by case_match.
Qed.

Lemma receiveOneMessage_multiplexor (rawmsg : string) (s s' : State) :
  receiveOneMessage rawmsg s = Some s' -> multiplexor s' = multiplexor s.
Proof.
  unfold receiveOneMessage. intros H.
  repeat case_match; simplify_eq; auto using dispatch_multiplexor.
Qed.

Lemma onMessage_multiplexor (data : list string) (s : State) :
  multiplexor (onMessage data s) = multiplexor s.
Proof.
  revert s. induction data as [|rawmsg data IH]; intros s; [done|].
  simpl. destruct (receiveOneMessage rawmsg s) as [s'|] eqn:E; [|done].
  rewrite IH. by eapply receiveOneMessage_multiplexor.
Qed.

Lemma step_multiplexor (e : Event) (s : State) :
  exists es, multiplexor (step e s) = mux_run es (multiplexor s).
Proof.
  destruct e as [pid|pid name|pid name myArgs|data|p o| |]; simpl.
  - exists []. unfold getProxy. by case_match.
  - exists []. by destruct (proxy_get_fields pid name s) as (_ & _ & _ & -> & _).
  - destruct (proxy_get_fields pid name s) as (_ & _ & _ & Hm & _).
    destruct (proxy_get pid name s) as [[f|] s']; cbn [snd] in *;
      [|by exists []; rewrite Hm].
    unfold call. destruct (isDisposed s') eqn:Hd.
    + exists []. rewrite remoteCall_disposed by done. cbn [snd]. by rewrite Hm.
    + destruct (remoteCall_live (fn_proxyId f) (fn_name f) myArgs s' Hd)
        as (_ & _ & _ & _ & -> & _).
      rewrite Hm. by eexists [MSend _].
  - exists []. apply onMessage_multiplexor.
  - exists []. unfold settlePromise. by case_match.
  - unfold runMicrotask. destruct (microtasks s) as [|j rest]; [by exists []|].
    by eexists [MSend _].
  - by exists [MImmediate].
Qed.

Lemma step_mux_ok (e : Event) (s : State) :
  mux_ok (multiplexor s) -> mux_ok (multiplexor (step e s)).
Proof.
  intros H. destruct (step_multiplexor e s) as [es ->]. by apply mux_run_ok.
Qed.

(** X2: in every state of a session the protocol has handed the connection
    no empty batch, and its multiplexer has a flush scheduled exactly when
    it holds messages, never two. *)
Theorem session_never_sends_empty_batch (s : State) :
  reachable s ->
  Forall (fun batch => batch <> []) (connection (multiplexor s)) /\
  immediates (multiplexor s)
    = (if messagesToSend (multiplexor s) is [] then [] else [sendAccumulatedBound]).
Proof.
  intros (eng & actors & es & ->).
  change (mux_ok (multiplexor (run es (new_RPCProtocolImpl eng actors)))).
  assert (H : mux_ok (multiplexor (new_RPCProtocolImpl eng actors)))
    by apply new_mux_ok.
  revert H. generalize (new_RPCProtocolImpl eng actors).
  induction es as [|e es IH]; intros s H; [done|].
  unfold run in *. simpl. by apply IH, step_mux_ok.
Qed.

(** ** Batches of incoming messages *)






Lemma receiveOneMessage_null (rawmsg : string) (s : State) :
  isDisposed s = false -> JSON_parse rawmsg = Some JNull ->
  receiveOneMessage rawmsg s = None.
Proof. intros Hd Hp. unfold receiveOneMessage. by rewrite Hd, Hp. Qed.

(** X6: a message that is the text of [null] ends its batch.  Reading its
    [type] throws, the loop of the listener is left, and the messages after
    it in the batch are not handled: the batch does what the messages
    before it do. *)
Theorem null_message_ends_batch (before after : list string) (rawmsg : string)
    (s : State) :
  isDisposed s = false -> JSON_parse rawmsg = Some JNull ->
  onMessage (before ++ rawmsg :: after) s = onMessage before s.
Proof.
  intros Hd Hp. revert s Hd. induction before as [|x before IH]; intros s Hd.
  - simpl. by rewrite receiveOneMessage_null.
  - simpl. destruct (receiveOneMessage x s) as [s'|] eqn:E; [|done].
    apply IH. destruct (receiveOneMessage_handled x s s' E) as (-> & _). done.
Qed.

(** ** Outstanding calls *)

Lemma remoteCall_calls_ok (proxyId methodName : string) (args : list JSON)
    (s : State) :
  calls_ok s -> calls_ok (snd (remoteCall proxyId methodName args s)).
Proof.
  intros [Hs Hi]. destruct (isDisposed s) eqn:Hd.
  { by rewrite remoteCall_disposed. }
  destruct (remoteCall_live proxyId methodName args s Hd)
    as (_ & _ & Hp & Hh & _).
  set (cid := string_of_N (increment (lastMessageId s))) in *.
  assert (Hlt : forall k a, pendingRPCReplies s !! k = Some a ->
                            (a < length (heap s))%nat).
  { intros k a Hk. apply (lookup_lt_Some _ _ Pending), (Hs k a Hk). }
  split.
  - intros k a. rewrite Hp, Hh. destruct (decide (cid = k)) as [<-|Hne].
    + rewrite lookup_insert_eq. intros [= <-].
      by rewrite lookup_app_r, Nat.sub_diag.
    + rewrite lookup_insert_ne by done. intros Hk.
      rewrite lookup_app_l by eauto. eauto.
  - intros k k' a. rewrite Hp.
    destruct (decide (cid = k)) as [<-|Hne], (decide (cid = k')) as [<-|Hne'];
      rewrite ?lookup_insert_eq, ?lookup_insert_ne by done; [done|..].
    + intros [= <-] Hk'. apply Hlt in Hk'. lia.
    + intros Hk [= <-]. apply Hlt in Hk. lia.
    + apply Hi.
Qed.

Lemma settle_calls_ok (f : LazyPromise -> LazyPromise) (callId : string)
    (a : nat) (s : State) :
  calls_ok s -> pendingRPCReplies s !! callId = Some a ->
  calls_ok (set_heap (alter f a (heap s))
              (set_pendingRPCReplies (delete callId (pendingRPCReplies s)) s)).
Proof.
  intros [Hs Hi] Ha. split; cbn.
  - intros k b [Hne Hk]%lookup_delete_Some.
    rewrite list_lookup_alter_ne; [by apply (Hs k)|].
    intros <-. by destruct Hne; apply (Hi callId k a).
  - intros k k' b [_ Hk]%lookup_delete_Some [_ Hk']%lookup_delete_Some.
    by apply (Hi k k' b).
Qed.

Lemma dispatch_calls_ok (msg : RPCMessage) (s : State) :
  calls_ok s -> calls_ok (dispatch msg s).
Proof.
  intros H. destruct msg as [m|m|m]; simpl.
  - destruct (receiveRequest_caller_side m s) as (_ & Hh & Hp).
    unfold calls_ok. by rewrite Hh, Hp.
  - unfold receiveReply.
    destruct (pendingRPCReplies s !! ReplyMessage.id m) as [a|] eqn:E; [|done].
    exact (settle_calls_ok _ (ReplyMessage.id m) a s H E).
  - unfold receiveReplyErr.
    destruct (pendingRPCReplies s !! ReplyErrMessage.id m) as [a|] eqn:E; [|done].
    exact (settle_calls_ok _ (ReplyErrMessage.id m) a s H E).
Qed.

Lemma onMessage_calls_ok (data : list string) (s : State) :
  calls_ok s -> calls_ok (onMessage data s).
Proof.
  revert s. induction data as [|rawmsg data IH]; intros s H; [done|].
  simpl. destruct (receiveOneMessage rawmsg s) as [s'|] eqn:E; [|done].
  apply IH. unfold receiveOneMessage in E.
  destruct (isDisposed s); [by simplify_eq|].
  destruct (JSON_parse rawmsg) as [j|]; [|done].
  destruct (decode j) as [[m|]|]; simplify_eq; [|done].
  by apply dispatch_calls_ok.
Qed.

Lemma calls_ok_same (s s' : State) :
  pendingRPCReplies s' = pendingRPCReplies s -> heap s' = heap s ->
  calls_ok s -> calls_ok s'.
Proof. intros Hp Hh. unfold calls_ok. by rewrite Hp, Hh. Qed.

Lemma step_calls_ok (e : Event) (s : State) : calls_ok s -> calls_ok (step e s).
Proof.
  intros H. destruct e as [pid|pid name|pid name myArgs|data|p o| |]; simpl.
  - apply (calls_ok_same s); [..|done]; unfold getProxy; by case_match.
  - destruct (proxy_get_fields pid name s) as (_ & _ & Hq & _ & Hh).
    by apply (calls_ok_same s).
  - destruct (proxy_get_fields pid name s) as (_ & _ & Hq & _ & Hh).
    assert (H' : calls_ok (snd (proxy_get pid name s)))
      by (by apply (calls_ok_same s)).
    destruct (proxy_get pid name s) as [[f|] s']; [|exact H'].
    unfold call. cbn [snd] in *. by apply remoteCall_calls_ok.
  - by apply onMessage_calls_ok.
  - apply (calls_ok_same s); [..|done]; unfold settlePromise; by case_match.
  - apply (calls_ok_same s); [..|done]; unfold runMicrotask; by case_match.
  - by apply (calls_ok_same s).
Qed.

Lemma run_calls_ok (es : list Event) (s : State) : calls_ok s -> calls_ok (run es s).
Proof.
  revert s. induction es as [|e es IH]; intros s H; [done|].
  unfold run in *. simpl. by apply IH, step_calls_ok.
Qed.

(** X7: in every state of a session, a call id among the pending replies
    leads to a [LazyPromise] that exists and is still pending, and no other
    call id leads to the same one: a reply can settle only the promise its
    own call returned. *)
Theorem pending_reply_is_pending (s : State) (callId : string) (a : nat) :
  reachable s -> pendingRPCReplies s !! callId = Some a ->
  heap s !! a = Some Pending /\
  forall k, pendingRPCReplies s !! k = Some a -> k = callId.
Proof.
  intros (eng & actors & es & ->) Ha.
  assert (H : calls_ok (run es (new_RPCProtocolImpl eng actors))).
  { apply run_calls_ok. split; intros ? *; cbn; by rewrite lookup_empty. }
  destruct H as [Hs Hi]. split; [by apply (Hs callId)|].
  intros k Hk. by apply (Hi k callId a).
Qed.

(** ** What the caller sees *)





(** ** A call from one side to the other *)




(** ** Proxies and their identifiers *)

(** X10: [getProxy] makes the proxy of an identifier once.  After it the
    identifier has a proxy; asking again changes nothing; a proxy that
    exists is kept with everything it has bound; and the proxies of other
    identifiers are not touched. *)
Theorem getProxy_caches (pid : ProxyIdentifier.t) (s : State) :
  let s1 := getProxy pid s in
  is_Some (proxies s1 !! ProxyIdentifier.id pid) /\
  getProxy pid s1 = s1 /\
  (forall target, proxies s !! ProxyIdentifier.id pid = Some target -> s1 = s) /\
  (forall other, other <> ProxyIdentifier.id pid ->
                 proxies s1 !! other = proxies s !! other).
Proof.
  intros s1. subst s1. unfold getProxy. cbv zeta.
  destruct (proxies s !! ProxyIdentifier.id pid) as [target|] eqn:E.
  - rewrite E. eauto.
  - cbn. rewrite !lookup_insert_eq. split; [eauto|]. split; [done|].
    split; [done|]. intros other Hne. by rewrite lookup_insert_ne.
Qed.

Lemma handler_get_bound (proxyId : string)
    (target : gmap string RemoteFunction) (name : string) (f : RemoteFunction) :
  target !! name = Some f -> handler_get proxyId target name = (Some f, target).
Proof.
  intros Ef. unfold handler_get. rewrite Ef.
  rewrite (bool_decide_eq_true_2 (is_Some (Some f))) by eauto. cbn.
  by rewrite Ef.
Qed.

Lemma handler_get_unbound (proxyId : string)
    (target : gmap string RemoteFunction) (name : string) :
  target !! name = None ->
  handler_get proxyId target name =
  if starts_with_dollar name
  then (Some {| fn_proxyId := proxyId; fn_name := name |},
        <[name := {| fn_proxyId := proxyId; fn_name := name |}]> target)
  else (None, target).
Proof.
  intros Ef. unfold handler_get. rewrite Ef.
  rewrite (bool_decide_eq_false_2 (is_Some None)) by (by intros [? ?]).
  destruct (starts_with_dollar name); cbn; [by rewrite lookup_insert_eq|].
  by rewrite Ef.
Qed.

Lemma handler_get_twice (proxyId : string)
    (target : gmap string RemoteFunction) (name : string) :
  handler_get proxyId (snd (handler_get proxyId target name)) name
  = handler_get proxyId target name.
Proof.
  destruct (target !! name) as [f|] eqn:Ef.
  - rewrite (handler_get_bound proxyId target name f Ef). cbn [snd].
    by apply handler_get_bound.
  - rewrite (handler_get_unbound proxyId target name Ef).
    destruct (starts_with_dollar name) eqn:Ed; cbn [snd].
    + apply handler_get_bound, lookup_insert_eq.
    + by rewrite (handler_get_unbound proxyId target name Ef), Ed.
Qed.

Lemma set_proxies_twice (a b : gmap string (gmap string RemoteFunction))
    (s : State) :
  set_proxies a (set_proxies b s) = set_proxies a s.
Proof. reflexivity. Qed.

(** X11: a proxy binds a name once.  Reading the same property again gives
    the function of the first read and leaves the state of the first read
    as it is, and [getProxy] after a read keeps the proxy with what it has
    bound. *)
Theorem proxy_get_binds_once (proxyId name : string) (s : State) :
  let r := proxy_get proxyId name s in
  proxy_get proxyId name (snd r) = r /\
  forall isMain, is_Some (proxies s !! proxyId) ->
    getProxy (ProxyIdentifier.mk isMain proxyId) (snd r) = snd r.
Proof.
  intros r. subst r. unfold proxy_get.
  destruct (proxies s !! proxyId) as [target|] eqn:E.
  - pose proof (handler_get_twice proxyId target name) as H.
    destruct (handler_get proxyId target name) as [f target'] eqn:Eh.
    cbn [snd proxies set_proxies] in *. rewrite lookup_insert_eq.
    split.
    + rewrite H, set_proxies_twice. by rewrite insert_insert_eq.
    + intros isMain _. unfold getProxy. cbn. by rewrite lookup_insert_eq.
  - cbn [snd]. rewrite E. split; [done|]. by intros ? [? ?].
Qed.

Lemma append_inj_l (a x y : string) : a +:+ x = a +:+ y -> x = y.
Proof. induction a as [|c a IH]; simpl; [done|]. intros [= H]. auto. Qed.

(** X12: the identifiers of the two sides do not meet.  An identifier made
    for the main side and one made for the extension side have different
    ids whatever the names, and on one side different names give different
    ids: no two of them share an entry of [proxies] or [locals]. *)
Theorem proxy_identifiers_distinct (a b : string) :
  ProxyIdentifier.id (createMainProxyIdentifier a)
    <> ProxyIdentifier.id (createExtensionProxyIdentifier b) /\
  (ProxyIdentifier.id (createMainProxyIdentifier a)
     = ProxyIdentifier.id (createMainProxyIdentifier b) -> a = b) /\
  (ProxyIdentifier.id (createExtensionProxyIdentifier a)
     = ProxyIdentifier.id (createExtensionProxyIdentifier b) -> a = b) /\
  ProxyIdentifier.isMain (createMainProxyIdentifier a) = true /\
  ProxyIdentifier.isMain (createExtensionProxyIdentifier b) = false.
Proof.
  split; [by intros [=]|]. split; [apply (append_inj_l "m")|].
  split; [apply (append_inj_l "e")|]. by split.
Qed.

(** ** The search term throttle *)

Lemma throttle_clearTimer (th : Throttle.t) :
  Throttle.timers_ok th ->
  Throttle.clearTimer th =
  {| Throttle.timer := None; Throttle.state := Throttle.state th;
     Throttle.emitter := Throttle.emitter th; Throttle.timers := [];
     Throttle.nextTimer := Throttle.nextTimer th |}.
Proof.
  destruct th as [tm st em ts nx]. unfold Throttle.timers_ok, Throttle.clearTimer,
    Throttle.timer_set. simpl. intros [Hnx H]. destruct tm as [id|].
  - destruct H as [-> [Hpos _]]. destruct (N.eqb_spec id 0); [lia|].
    simpl. by rewrite filter_cons_False, filter_nil by (by intros H; apply H).
  - by subst ts.
Qed.

Lemma throttle_update_some (i : string) (th : Throttle.t) :
  Throttle.timers_ok th ->
  Throttle.update (Some i) th =
  {| Throttle.timer := Some (Throttle.nextTimer th);
     Throttle.state := Some (Throttle.term th +:+ i);
     Throttle.emitter := Throttle.emitter th;
     Throttle.timers := [Throttle.nextTimer th];
     Throttle.nextTimer := (Throttle.nextTimer th + 1)%N |}.
Proof.
  intros H. unfold Throttle.update. rewrite throttle_clearTimer by done.
  unfold Throttle.term, Throttle.state_set. simpl.
  destruct (Throttle.state th) as [s|]; [|done].
  by destruct (String.eqb s EmptyString).
Qed.

Lemma throttle_update_none (th : Throttle.t) :
  Throttle.timers_ok th ->
  Throttle.update None th =
  {| Throttle.timer := None; Throttle.state := None;
     Throttle.emitter := Throttle.emitter th ++ [None];
     Throttle.timers := []; Throttle.nextTimer := Throttle.nextTimer th |}.
Proof.
  intros H. unfold Throttle.update, Throttle.reset, Throttle.fireChanged.
  rewrite throttle_clearTimer; [done|].
  destruct th as [tm st em ts nx]. exact H.
Qed.

Lemma throttle_timeout_live (id : N) (th : Throttle.t) :
  Throttle.timers_ok th -> Throttle.timer th = Some id ->
  Throttle.timeout id th =
  {| Throttle.timer := None; Throttle.state := Throttle.state th;
     Throttle.emitter := Throttle.emitter th ++ [Throttle.state th];
     Throttle.timers := []; Throttle.nextTimer := Throttle.nextTimer th |}.
Proof.
  destruct th as [tm st em ts nx]. unfold Throttle.timers_ok. simpl.
  intros [Hnx H] ->. destruct H as [-> [Hpos Hlt]].
  unfold Throttle.timeout. simpl.
  rewrite bool_decide_eq_true_2 by apply list_elem_of_singleton, eq_refl.
  rewrite filter_cons_False, filter_nil by (by intros H; apply H).
  unfold Throttle.fireChanged, Throttle.clearTimer, Throttle.timer_set. simpl.
  by destruct (N.eqb_spec id 0); [lia|].
Qed.

Lemma throttle_timeout_stale (id : N) (th : Throttle.t) :
  id ∉ Throttle.timers th -> Throttle.timeout id th = th.
Proof. intros H. unfold Throttle.timeout. by rewrite bool_decide_eq_false_2. Qed.

Lemma throttle_step_ok (e : Throttle.Event) (th : Throttle.t) :
  Throttle.timers_ok th -> Throttle.timers_ok (Throttle.step e th).
Proof.
  intros H. destruct e as [[i|]|id]; cbn [Throttle.step].
  - rewrite throttle_update_some by done. destruct H as [Hnx _].
    split; simpl; [lia|]. split; [done|lia].
  - rewrite throttle_update_none by done. by destruct H as [Hnx _].
  - destruct (decide (id ∈ Throttle.timers th)) as [Hin|Hout].
    + assert (Ht : Throttle.timer th = Some id).
      { destruct H as [_ H]. destruct (Throttle.timer th) as [id'|].
        - destruct H as [E _]. rewrite E in Hin.
          apply list_elem_of_singleton in Hin. by subst.
        - rewrite H in Hin. by apply not_elem_of_nil in Hin. }
      rewrite throttle_timeout_live by done. by destruct H as [Hnx _].
    + by rewrite throttle_timeout_stale.
Qed.

Lemma throttle_run_ok (es : list Throttle.Event) (th : Throttle.t) :
  Throttle.timers_ok th -> Throttle.timers_ok (Throttle.run es th).
Proof.
  revert th. induction es as [|e es IH]; intros th H; [done|].
  unfold Throttle.run in *. simpl. by apply IH, throttle_step_ok.
Qed.

Lemma throttle_reachable_ok (th : Throttle.t) :
  Throttle.reachable th -> Throttle.timers_ok th.
Proof. intros [es ->]. apply throttle_run_ok. by split. Qed.

(** X13: whatever is typed and whichever timers run, the throttle has at
    most one timer set, the one it remembers in [timer]: every [update]
    clears the timer before it sets the next. *)
Theorem throttle_one_timer (th : Throttle.t) :
  Throttle.reachable th ->
  Throttle.timers th
  = match Throttle.timer th with
    | Some id => [id]
    | None => []
    end.
Proof.
  intros H. destruct (throttle_reachable_ok th H) as [_ Hok].
  destruct (Throttle.timer th); [by destruct Hok|done].
Qed.

Lemma throttle_term_state (th : Throttle.t) (s : string) :
  Throttle.state th = Some s -> Throttle.term th = s.
Proof.
  intros H. unfold Throttle.term, Throttle.state_set. rewrite H.
  by destruct (String.eqb_spec s EmptyString).
Qed.

Lemma throttle_run_cons (e : Throttle.Event) (es : list Throttle.Event)
    (th : Throttle.t) :
  Throttle.run (e :: es) th = Throttle.run es (Throttle.step e th).
Proof. reflexivity. Qed.

Lemma throttle_typing (inputs : list string) (i : string) (th : Throttle.t) :
  Throttle.timers_ok th ->
  let th' := Throttle.run (map (fun x => Throttle.Update (Some x)) (i :: inputs)) th in
  Throttle.timers_ok th' /\
  Throttle.emitter th' = Throttle.emitter th /\
  Throttle.state th'
    = Some (Throttle.term th +:+ Throttle.concat_all (i :: inputs)) /\
  exists id, Throttle.timer th' = Some id.
Proof.
  revert i th. induction inputs as [|j inputs IH]; intros i th H th'; subst th';
    cbn [map]; rewrite throttle_run_cons; cbn [Throttle.step];
    pose proof (throttle_step_ok (Throttle.Update (Some i)) th H) as H1;
    cbn [Throttle.step] in H1;
    pose proof (throttle_update_some i th H) as E.
  - change (Throttle.run [] ?x) with x. split; [done|]. rewrite E. simpl.
    rewrite append_nil_r. eauto.
  - specialize (IH j _ H1). cbv zeta in IH. cbn [map] in IH.
    destruct IH as (Hok & Hem & Hst & Hid).
    split; [done|]. split; [by rewrite Hem, E|]. split; [|exact Hid].
    rewrite Hst.
    rewrite (throttle_term_state _ (Throttle.term th +:+ i)) by (by rewrite E).
    cbn [Throttle.concat_all]. by rewrite append_assoc.
Qed.

(** X14: keys typed one after the other give one notification.  While they
    come nothing is fired; when the timer of the last one runs, the emitter
    fires once, with the term the throttle had before followed by the keys
    in order; after that no timer is left, and the term is kept for the
    keys to come. *)
Theorem throttle_coalesces (inputs : list string) (i : string) (th : Throttle.t) :
  Throttle.reachable th ->
  let typed := Throttle.term th +:+ Throttle.concat_all (i :: inputs) in
  let th' := Throttle.run (map (fun x => Throttle.Update (Some x)) (i :: inputs)) th in
  Throttle.emitter th' = Throttle.emitter th /\
  exists id,
    Throttle.timer th' = Some id /\
    Throttle.timers th' = [id] /\
    Throttle.emitter (Throttle.timeout id th') = Throttle.emitter th ++ [Some typed] /\
    Throttle.timers (Throttle.timeout id th') = [] /\
    Throttle.term (Throttle.timeout id th') = typed.
Proof.
  intros Hr typed th'.
  destruct (throttle_typing inputs i th (throttle_reachable_ok th Hr))
    as (Hok & Hem & Hst & id & Hid).
  fold th' in Hok, Hem, Hst, Hid. fold typed in Hst.
  split; [done|]. exists id. split; [done|].
  split; [destruct Hok as [_ Hok]; rewrite Hid in Hok; by destruct Hok|].
  rewrite throttle_timeout_live by done. simpl. rewrite Hem, Hst.
  split; [done|]. split; [done|]. by apply throttle_term_state.
Qed.

(** X15: [update(undefined)] forgets the term, fires [undefined] at once
    and clears the timer: whichever timers run afterwards, nothing more is
    fired for the keys typed before. *)
Theorem throttle_reset_cancels (ids : list N) (th : Throttle.t) :
  Throttle.reachable th ->
  let th' := Throttle.update None th in
  Throttle.emitter th' = Throttle.emitter th ++ [None] /\
  Throttle.state th' = None /\
  Throttle.timer th' = None /\
  Throttle.timers th' = [] /\
  Throttle.run (map Throttle.Timeout ids) th' = th'.
Proof.
  intros Hr th'. subst th'.
  rewrite throttle_update_none by (by apply throttle_reachable_ok).
  repeat (split; [done|]).
  induction ids as [|id ids IH]; [done|].
  unfold Throttle.run in *. cbn [map foldl Throttle.step].
  rewrite throttle_timeout_stale; [exact IH|]. simpl. apply not_elem_of_nil.
Qed.
(** ** The further properties at work *)

Lemma one_call_reachable : reachable one_call.
Proof.
  by exists example_stack, ∅,
    [GetProxy mService; ProxyCall "mService" "$greet" [JStr "World"]].
Defined.

Lemma session_never_sends_empty_batch_witness :
  reachable one_call_sent /\
  Forall (fun batch => batch <> []) (connection (multiplexor one_call_sent)) /\
  immediates (multiplexor one_call_sent) = [].
Proof.
  assert (H : reachable one_call_sent).
  { exists example_stack, ∅,
      [GetProxy mService; ProxyCall "mService" "$greet" [JStr "World"];
       RunImmediate]. reflexivity. }
  split; [exact H|].
  exact (session_never_sends_empty_batch one_call_sent H).
Defined.




Lemma null_message_ends_batch_witness :
  isDisposed one_call = false /\ JSON_parse "null" = Some JNull /\
  onMessage ["null"; MessageFactory.replyOK "1" None] one_call = one_call.
Proof.
  assert (H : JSON_parse "null" = Some JNull) by (vm_compute; reflexivity).
  split; [reflexivity|]. split; [exact H|].
  exact (null_message_ends_batch [] [MessageFactory.replyOK "1" None] "null"
           one_call eq_refl H).
Defined.

Lemma pending_reply_is_pending_witness :
  reachable one_call /\ pendingRPCReplies one_call !! "1" = Some 0%nat /\
  heap one_call !! 0%nat = Some Pending.
Proof.
  assert (H : pendingRPCReplies one_call !! "1" = Some 0%nat)
    by (vm_compute; reflexivity).
  split; [exact one_call_reachable|]. split; [exact H|].
  exact (proj1 (pending_reply_is_pending one_call "1" 0 one_call_reachable H)).
Defined.



Lemma getProxy_caches_witness :
  proxies proxy_known !! "mService" = Some ∅ /\
  getProxy mService proxy_known = proxy_known.
Proof.
  assert (H : proxies proxy_known !! "mService" = Some ∅)
    by (vm_compute; reflexivity).
  split; [exact H|].
  exact (proj1 (proj2 (proj2 (getProxy_caches mService
                                proxy_known))) ∅ H).
Defined.

Lemma proxy_get_binds_once_witness :
  is_Some (proxies proxy_known !! "mService") /\
  getProxy mService (snd (proxy_get "mService" "$greet" proxy_known))
  = snd (proxy_get "mService" "$greet" proxy_known).
Proof.
  assert (H : is_Some (proxies proxy_known !! "mService"))
    by (eexists; vm_compute; reflexivity).
  split; [exact H|].
  exact (proj2 (proxy_get_binds_once "mService" "$greet"
                  proxy_known) true H).
Defined.

Lemma proxy_identifiers_distinct_witness :
  ProxyIdentifier.id (createMainProxyIdentifier "Service")
    = ProxyIdentifier.id (createMainProxyIdentifier "Service") /\
  "Service" = "Service".
Proof.
  split; [reflexivity|].
  exact (proj1 (proj2 (proxy_identifiers_distinct "Service" "Service")) eq_refl).
Defined.

Lemma throttle_typed_reachable :
  Throttle.reachable two_keys.
Proof. by exists [Throttle.Update (Some "a"); Throttle.Update (Some "b")]. Defined.

Lemma throttle_one_timer_witness :
  Throttle.reachable two_keys /\
  Throttle.timers two_keys = [2%N].
Proof.
  split; [exact throttle_typed_reachable|].
  exact (throttle_one_timer _ throttle_typed_reachable).
Defined.

Lemma throttle_coalesces_witness :
  Throttle.reachable two_keys /\
  Throttle.emitter
    (Throttle.run [Throttle.Update (Some "c"); Throttle.Update (Some "d")] two_keys) = [].
Proof.
  split; [exact throttle_typed_reachable|].
  exact (proj1 (throttle_coalesces ["d"] "c" _ throttle_typed_reachable)).
Defined.

Lemma throttle_reset_cancels_witness :
  Throttle.reachable two_keys /\
  Throttle.emitter
    (Throttle.update None two_keys) = [None].
Proof.
  split; [exact throttle_typed_reachable|].
  exact (proj1 (throttle_reset_cancels [1%N; 2%N] _ throttle_typed_reachable)).
Defined.
